(** * LiveBoard: the collaboration core ([src/lib/collaboration.ts])

    A shallow embedding of [CollaborationManager] and of the types of
    [src/types/whiteboard.ts].

    Numbers.  JavaScript numbers are modelled by [Z]: timestamps are
    millisecond clock readings and canvas coordinates are taken on the
    integer pixel grid, so that [+ 1], [-], [Math.abs] and [Math.max] are
    exact.  The only non-integer operation of the file is the square root
    in [hasSpatialConflict]; for non-negative reals [sqrt d < 50] is the
    same as [d < 50 * 50], which is how the comparison is written here.

    Objects.  Arrays and [WhiteboardState] objects are mutable and shared
    by reference, so they live in a heap and are named by locations.  A
    [DrawingAction] is never mutated after it has been built (the only
    assignment to a field of one is on the fresh copy made by
    [resolveConflicts]), so actions are plain values; so is the roster,
    which the manager replaces whole and never updates in place. *)

From Stdlib Require Import ZArith List Lia Sorted Permutation.
From stdpp Require Import base option list sorting gmap strings pretty.

Local Open Scope Z_scope.

(** ** Types ([src/types/whiteboard.ts]) *)

Record Point := mkPoint { x : Z; y : Z }.

Inductive ActionType := draw | erase | clear.

Record DrawingAction := mkAction {
  id : string;
  type : ActionType;
  points : list Point;
  color : string;
  strokeWidth : Z;
  timestamp : Z;
  userId : string
}.

Record Collaborator := mkCollaborator {
  c_id : string;
  c_name : string;
  c_color : string;
  cursor : option Point;
  isActive : bool;
  lastSeen : Z
}.

(** A reference to an object of the heap. *)
Definition ref := positive.

(** [actions] holds a reference: the array itself is in the heap. *)
Record WhiteboardState := mkState {
  ws_id : string;
  ws_name : string;
  actions : ref;
  lastModified : Z;
  createdBy : string;
  collaborators : list Collaborator
}.

(** The value returned by [addAction]; [conflict] and [resolvedAction] are
    optional properties of the returned object. *)
Record AddResult := mkResult {
  success : bool;
  conflict : option bool;
  resolvedAction : option DrawingAction
}.

(** The value returned by [createSnapshot]: [state] refers to a
    [WhiteboardState] object. *)
Record Snapshot := mkSnapshot { state : ref; snap_timestamp : Z }.

Global Instance ActionType_eq_dec : EqDecision ActionType.
Proof. solve_decision. Defined.

(** [a.type === b] on the three literals. *)
Definition type_eqb (a b : ActionType) : bool :=
  match a, b with
  | draw, draw | erase, erase | clear, clear => true
  | _, _ => false
  end.

(** [{ ...a, timestamp: t }]: the assignment to the [timestamp] property of
    a private copy. *)
Definition set_timestamp (a : DrawingAction) (t : Z) : DrawingAction :=
  {| id := id a; type := type a; points := points a; color := color a;
     strokeWidth := strokeWidth a; timestamp := t; userId := userId a |}.

(** ** Array helpers *)

Section Arrays.
Context {A : Type}.

(** [for (const a of l) if (keep a) out.push(a)], started on [out]. *)
Definition push_if (keep : A -> bool) (out : list A) (a : A) : list A :=
  if keep a then out ++ [a] else out.

Definition collect (keep : A -> bool) (l : list A) : list A :=
  fold_left (push_if keep) l [].

(** [Array.prototype.findIndex]: the first index whose element satisfies
    [p], or [-1]. *)
Fixpoint findIndex_from (p : A -> bool) (self : list A) (i : Z) : Z :=
  match self with
  | [] => -1
  | a :: rest => if p a then i else findIndex_from p rest (i + 1)
  end.

Definition findIndex (p : A -> bool) (self : list A) : Z :=
  findIndex_from p self 0.

(** [Array.prototype.filter] with the [(element, index, self)] callback. *)
Fixpoint filter_from (f : A -> Z -> list A -> bool) (self l : list A) (i : Z)
  : list A :=
  match l with
  | [] => []
  | a :: rest =>
      if f a i self then a :: filter_from f self rest (i + 1)
      else filter_from f self rest (i + 1)
  end.

Definition filter_indexed (f : A -> Z -> list A -> bool) (self : list A)
  : list A :=
  filter_from f self self 0.

(** [Array.prototype.sort(cmp)].  The sort is stable (ECMAScript 2019),
    so for a consistent comparator its result is determined; it is
    computed here by a stable insertion: an element goes in front of the
    first later element that does not compare below it. *)
Fixpoint insert_sorted (cmp : A -> A -> Z) (a : A) (l : list A) : list A :=
  match l with
  | [] => [a]
  | b :: rest =>
      if cmp a b <=? 0 then a :: b :: rest
      else b :: insert_sorted cmp a rest
  end.

Fixpoint sort (cmp : A -> A -> Z) (l : list A) : list A :=
  match l with
  | [] => []
  | a :: rest => insert_sorted cmp a (sort cmp rest)
  end.
End Arrays.

(** ** Conflict detection and resolution (pure part of the methods) *)

Definition timeWindow : Z := 5000.
Definition threshold : Z := 50.

(** [Math.sqrt(Math.pow(dx, 2) + Math.pow(dy, 2)) < threshold]. *)
Definition distance_lt_threshold (point1 point2 : Point) : bool :=
  (x point1 - x point2) ^ 2 + (y point1 - y point2) ^ 2 <? threshold ^ 2.

(** The two nested [for] loops with their early [return true]. *)
Fixpoint any_close_to (point1 : Point) (points2 : list Point) : bool :=
  match points2 with
  | [] => false
  | point2 :: rest =>
      if distance_lt_threshold point1 point2 then true
      else any_close_to point1 rest
  end.

Fixpoint any_close (points1 points2 : list Point) : bool :=
  match points1 with
  | [] => false
  | point1 :: rest =>
      if any_close_to point1 points2 then true else any_close rest points2
  end.

Definition hasSpatialConflict (action1 action2 : DrawingAction) : bool :=
  if ((length (points action1) =? 0)%nat || (length (points action2) =? 0)%nat)%bool
  then false
  else any_close (points action1) (points action2).

(** The test of the loop body of [findConflicts]. *)
Definition conflictsWith (newAction action : DrawingAction) : bool :=
  if Z.abs (timestamp action - timestamp newAction) <? timeWindow
  then hasSpatialConflict newAction action
  else false.

(** [findConflicts], with [this.whiteboardState.actions] passed in. *)
Definition findConflicts (acts : list DrawingAction) (newAction : DrawingAction)
  : list DrawingAction :=
  collect (conflictsWith newAction) acts.

(** One iteration of the loop of [resolveConflicts]: the four branches are
    kept as they are written. *)
Definition resolveStep (newAction resolved conflict_ : DrawingAction)
  : DrawingAction :=
  if (type_eqb (type conflict_) clear && negb (type_eqb (type newAction) clear))%bool
  then set_timestamp resolved (Z.max (timestamp conflict_ + 1) (timestamp newAction))
  else if (type_eqb (type newAction) erase && type_eqb (type conflict_) draw)%bool
  then set_timestamp resolved (Z.max (timestamp conflict_ + 1) (timestamp newAction))
  else if (type_eqb (type newAction) draw && type_eqb (type conflict_) erase)%bool
  then set_timestamp resolved (Z.max (timestamp conflict_ + 1) (timestamp newAction))
  else set_timestamp resolved (Z.max (timestamp conflict_ + 1) (timestamp newAction)).

Definition resolveConflicts (newAction : DrawingAction)
    (conflicts : list DrawingAction) : DrawingAction :=
  fold_left (resolveStep newAction) conflicts newAction.

(** The comparator [(a, b) => a.timestamp - b.timestamp]. *)
Definition byTimestamp (a b : DrawingAction) : Z := timestamp a - timestamp b.

(** The array written by [optimizeActions]. *)
Definition optimized_of (acts : list DrawingAction) : list DrawingAction :=
  let clearActions := collect (fun a => type_eqb (type a) clear) acts in
  let optimized := collect (fun a => negb (type_eqb (type a) clear)) acts in
  if (0 <? length clearActions)%nat then
    match last clearActions (* clearActions[clearActions.length - 1] *) with
    | Some latestClear =>
        latestClear ::
          List.filter (fun a => timestamp latestClear <? timestamp a) optimized
    | None => optimized (* not reached: the array is not empty *)
    end
  else optimized.

(** The array written by [mergeActions]. *)
Definition uniqueActions_of (allActions : list DrawingAction)
  : list DrawingAction :=
  filter_indexed
    (fun action index self =>
       index =? findIndex (fun a => String.eqb (id a) (id action)) self)
    allActions.

Definition merged_of (acts incoming : list DrawingAction)
  : list DrawingAction :=
  sort byTimestamp (uniqueActions_of (acts ++ incoming)).

(** ** The heap and the manager

    [arrays] holds the [DrawingAction[]] arrays and [objects] the
    [WhiteboardState] objects; [whiteboardState] is the private field
    [this.whiteboardState] of the manager, a reference into [objects].  A
    method is a state transformer that fails only on a dangling reference,
    which a well-formed world does not have. *)

Record World := mkWorld {
  arrays : gmap ref (list DrawingAction);
  objects : gmap ref WhiteboardState;
  whiteboardState : ref
}.

Definition M (A : Type) : Type := World -> option (A * World).

Global Instance M_ret : MRet M := fun A a σ => Some (a, σ).
Global Instance M_bind : MBind M := fun A B f m σ =>
  match m σ with
  | Some (a, σ') => f a σ'
  | None => None
  end.

(** [this.whiteboardState] *)
Definition this_ref : M ref := fun σ => Some (whiteboardState σ, σ).

(** Reading the object or the array behind a reference. *)
Definition read_object (r : ref) : M WhiteboardState := fun σ =>
  match objects σ !! r with
  | Some ws => Some (ws, σ)
  | None => None
  end.

Definition read_array (r : ref) : M (list DrawingAction) := fun σ =>
  match arrays σ !! r with
  | Some l => Some (l, σ)
  | None => None
  end.

(** In-place update of an existing array (push, sort) or object (field
    assignment). *)
Definition write_array (r : ref) (l : list DrawingAction) : M unit := fun σ =>
  match arrays σ !! r with
  | Some _ =>
      Some (tt, {| arrays := <[r := l]> (arrays σ); objects := objects σ;
                   whiteboardState := whiteboardState σ |})
  | None => None
  end.

Definition write_object (r : ref) (ws : WhiteboardState) : M unit := fun σ =>
  match objects σ !! r with
  | Some _ =>
      Some (tt, {| arrays := arrays σ; objects := <[r := ws]> (objects σ);
                   whiteboardState := whiteboardState σ |})
  | None => None
  end.

(** Allocation of a new array (a literal, [filter], a spread) or of a new
    object (an object literal). *)
Definition new_array (l : list DrawingAction) : M ref := fun σ =>
  let r := fresh (dom (arrays σ)) in
  Some (r, {| arrays := <[r := l]> (arrays σ); objects := objects σ;
              whiteboardState := whiteboardState σ |}).

Definition new_object (ws : WhiteboardState) : M ref := fun σ =>
  let r := fresh (dom (objects σ)) in
  Some (r, {| arrays := arrays σ; objects := <[r := ws]> (objects σ);
              whiteboardState := whiteboardState σ |}).

(** [this.whiteboardState = r] *)
Definition set_this (r : ref) : M unit := fun σ =>
  Some (tt, {| arrays := arrays σ; objects := objects σ;
               whiteboardState := r |}).

Definition with_actions (ws : WhiteboardState) (r : ref) : WhiteboardState :=
  {| ws_id := ws_id ws; ws_name := ws_name ws; actions := r;
     lastModified := lastModified ws; createdBy := createdBy ws;
     collaborators := collaborators ws |}.

Definition with_lastModified (ws : WhiteboardState) (t : Z) : WhiteboardState :=
  {| ws_id := ws_id ws; ws_name := ws_name ws; actions := actions ws;
     lastModified := t; createdBy := createdBy ws;
     collaborators := collaborators ws |}.

Definition with_collaborators (ws : WhiteboardState) (cs : list Collaborator)
  : WhiteboardState :=
  {| ws_id := ws_id ws; ws_name := ws_name ws; actions := actions ws;
     lastModified := lastModified ws; createdBy := createdBy ws;
     collaborators := cs |}.

(** ** The methods of [CollaborationManager] *)

(** [constructor(initialState)]: the manager keeps the reference it is
    given. *)
Definition constructor (initialState : ref) : M unit := set_this initialState.

Definition applyAction (action : DrawingAction) : M unit :=
  this ← this_ref;
  ws ← read_object this;
  arr ← read_array (actions ws);
  write_array (actions ws) (arr ++ [action]);;
  ws ← read_object this;
  write_object this (with_lastModified ws (timestamp action));;
  ws ← read_object this;
  arr ← read_array (actions ws);
  write_array (actions ws) (sort byTimestamp arr).

Definition addAction (action : DrawingAction) : M AddResult :=
  this ← this_ref;
  ws ← read_object this;
  acts ← read_array (actions ws);
  let conflicts := findConflicts acts action in
  if (0 <? length conflicts)%nat then
    let resolved := resolveConflicts action conflicts in
    applyAction resolved;;
    mret {| success := true; conflict := Some true;
            resolvedAction := Some resolved |}
  else
    applyAction action;;
    mret {| success := true; conflict := Some false; resolvedAction := None |}.

(** [{ ...this.whiteboardState }]: a new object with the same property
    values, so the same array reference. *)
Definition getState : M ref :=
  this ← this_ref;
  ws ← read_object this;
  new_object ws.

Definition updateCollaborators (cs : list Collaborator) : M unit :=
  this ← this_ref;
  ws ← read_object this;
  write_object this (with_collaborators ws cs).

Definition getActionsSince (t : Z) : M (list DrawingAction) :=
  this ← this_ref;
  ws ← read_object this;
  acts ← read_array (actions ws);
  mret (List.filter (fun a => t <? timestamp a) acts).

Definition optimizeActions : M unit :=
  this ← this_ref;
  ws ← read_object this;
  acts ← read_array (actions ws);
  r ← new_array (optimized_of acts);
  ws ← read_object this;
  write_object this (with_actions ws r).

(** [now] is the value of [Date.now()] at the call. *)
Definition mergeActions (incoming : list DrawingAction) (now : Z) : M unit :=
  this ← this_ref;
  ws ← read_object this;
  acts ← read_array (actions ws);
  r ← new_array (merged_of acts incoming);
  ws ← read_object this;
  write_object this (with_actions ws r);;
  ws ← read_object this;
  write_object this (with_lastModified ws now).

Definition createSnapshot (now : Z) : M Snapshot :=
  this ← this_ref;
  ws ← read_object this;
  r ← new_object ws;
  mret {| state := r; snap_timestamp := now |}.

Definition restoreFromSnapshot (snapshot : Snapshot) : M unit :=
  ws ← read_object (state snapshot);
  r ← new_object ws;
  set_this r.

(** ** Observations of a world *)

(** The operation sequence seen through the [WhiteboardState] object [r]. *)
Definition actions_at (σ : World) (r : ref) : option (list DrawingAction) :=
  match objects σ !! r with
  | Some ws => arrays σ !! actions ws
  | None => None
  end.

Definition store_actions (σ : World) : option (list DrawingAction) :=
  actions_at σ (whiteboardState σ).

Definition store_lastModified (σ : World) : option Z :=
  lastModified <$> objects σ !! whiteboardState σ.

(** Ascending by timestamp. *)
Definition ts_le (a b : DrawingAction) : Prop := timestamp a <= timestamp b.

Global Instance ts_le_dec a b : Decision (ts_le a b).
Proof. unfold ts_le. apply _. Defined.

Definition sorted_asc (l : list DrawingAction) : Prop := StronglySorted ts_le l.

(** The mutating calls of the public interface, and a run of them. *)
Inductive Call :=
| AddAction (action : DrawingAction)
| MergeActions (incoming : list DrawingAction) (now : Z)
| OptimizeActions.

Definition call (c : Call) : M unit :=
  match c with
  | AddAction action => addAction action;; mret tt
  | MergeActions incoming now => mergeActions incoming now
  | OptimizeActions => optimizeActions
  end.

Fixpoint run (cs : list Call) : M unit :=
  match cs with
  | [] => mret tt
  | c :: rest => call c;; run rest
  end.

(** ** The specification's wording of the operations, and what [addAction]
    stores *)

(** The timestamp the specification assigns: the candidate's own, raised
    above every conflicting operation. *)
Definition spec_timestamp (candidate : DrawingAction)
    (conflicts : list DrawingAction) : Z :=
  fold_right (fun e m => Z.max m (timestamp e + 1)) (timestamp candidate)
    conflicts.

(** What [addAction] stores and returns, as functions of the operation
    list it finds. *)
Definition stored_of (acts : list DrawingAction) (action : DrawingAction)
  : DrawingAction :=
  let conflicts := findConflicts acts action in
  if (0 <? length conflicts)%nat then resolveConflicts action conflicts
  else action.

Definition result_of (acts : list DrawingAction) (action : DrawingAction)
  : AddResult :=
  let conflicts := findConflicts acts action in
  if (0 <? length conflicts)%nat then
    {| success := true; conflict := Some true;
       resolvedAction := Some (resolveConflicts action conflicts) |}
  else {| success := true; conflict := Some false; resolvedAction := None |}.

(** The operation [addAction] stored, read off its result: the resolved
    copy when there is one, the submitted operation otherwise. *)
Definition stored_action (action : DrawingAction) (res : AddResult)
  : DrawingAction :=
  default action (resolvedAction res).

Definition isClear (a : DrawingAction) : bool := type_eqb (type a) clear.

(** The last [Clear] of the list, in list order. *)
Definition latestClear (acts : list DrawingAction) : option DrawingAction :=
  last (List.filter isClear acts).

(** Compaction as the specification words it: the latest [Clear] followed
    by the other operations that are strictly later than it; everything
    when there is no [Clear]. *)
Definition spec_optimize (acts : list DrawingAction) : list DrawingAction :=
  match latestClear acts with
  | Some c =>
      c :: List.filter
             (fun a => negb (isClear a) && (timestamp c <? timestamp a))%bool acts
  | None => acts
  end.

(** Deduplication as the specification words it: walking the sequence, an
    operation is kept when its id has not been met before. *)
Fixpoint keep_first_by_id (seen : list string) (l : list DrawingAction)
  : list DrawingAction :=
  match l with
  | [] => []
  | a :: rest =>
      if existsb (String.eqb (id a)) seen then keep_first_by_id seen rest
      else a :: keep_first_by_id (id a :: seen) rest
  end.

Definition spec_merge (acts incoming : list DrawingAction)
  : list DrawingAction :=
  sort byTimestamp (keep_first_by_id [] (acts ++ incoming)).

(** ** Sample documents and operations *)

(** The world after [new CollaborationManager({ ..., actions: l, ... })]. *)
Definition store_with (l : list DrawingAction) : World :=
  {| arrays := {[ 1%positive := l ]};
     objects := {[ 1%positive := mkState "board" "Board" 1%positive 0 "user1" [] ]};
     whiteboardState := 1%positive |}.

(** A one-point stroke and a clear. *)
Definition stroke (i : string) (k : ActionType) (px py t : Z) : DrawingAction :=
  mkAction i k [mkPoint px py] "#000000" 2 t "user1".

Definition clearing (i : string) (t : Z) : DrawingAction :=
  mkAction i clear [] "#ffffff" 0 t "user1".

Definition draw_1000 : DrawingAction := stroke "action1" draw 10 10 1000.
Definition clear_2000 : DrawingAction := clearing "clear1" 2000.
Definition draw_3000 : DrawingAction := stroke "action2" draw 20 20 3000.
Definition draw_far_500 : DrawingAction := stroke "far" draw 900 900 500.
Definition draw_x_1000 : DrawingAction := stroke "x" draw 10 10 1000.
Definition draw_y_500 : DrawingAction := stroke "y" draw 12 12 500.
Definition draw_400 : DrawingAction := stroke "b" draw 10 10 400.
Definition draw_900 : DrawingAction := stroke "d" draw 10 10 900.
Definition erase_900 : DrawingAction := stroke "e" erase 12 12 900.
Definition clear_1000 : DrawingAction := clearing "c" 1000.
Definition clear_late_2000 : DrawingAction := clearing "c2" 2000.
Definition draw_mid_1500 : DrawingAction := stroke "a" draw 10 10 1500.
Definition clear_early_1000 : DrawingAction := clearing "c1" 1000.
Definition draw_end_2500 : DrawingAction := stroke "d" draw 20 20 2500.

(** The world a call leads to (the world itself when the call fails). *)
Definition world_after {A} (m : M A) (σ : World) : World :=
  match m σ with
  | Some (_, σ') => σ'
  | None => σ
  end.

(** A store next to a second document that holds two operations out of
    order, as a snapshot handed over by a caller can. *)
Definition two_documents : World :=
  {| arrays := {[ 1%positive := [];
                  2%positive := [draw_x_1000; draw_far_500] ]};
     objects := {[ 1%positive := mkState "board" "Board" 1%positive 0 "user1" [];
                   2%positive := mkState "saved" "Saved" 2%positive 0 "user1" [] ]};
     whiteboardState := 1%positive |}.

(** An empty store next to a second document that lists a draw at 1000
    before a nearby draw at 500. *)
Definition store_beside_unsorted : World :=
  {| arrays := {[ 1%positive := [];
                  2%positive := [draw_x_1000; draw_y_500] ]};
     objects := {[ 1%positive := mkState "board" "Board" 1%positive 0 "user1" [];
                   2%positive := mkState "saved" "Saved" 2%positive 0 "user1" [] ]};
     whiteboardState := 1%positive |}.

(** The [Clear] of greatest timestamp, the last of them in the list among
    equals: the latest [Clear] whatever the order of the list. *)
Definition later_clear (best : option DrawingAction) (a : DrawingAction)
  : option DrawingAction :=
  if isClear a then
    match best with
    | Some c => if timestamp c <=? timestamp a then Some a else Some c
    | None => Some a
    end
  else best.

Definition latestClear_by_time (acts : list DrawingAction)
  : option DrawingAction :=
  fold_left later_clear acts None.

(** Compaction around the [Clear] of greatest timestamp. *)
Definition optimize_by_time (acts : list DrawingAction)
  : list DrawingAction :=
  match latestClear_by_time acts with
  | Some c =>
      c :: List.filter
             (fun a => negb (isClear a) && (timestamp c <? timestamp a))%bool acts
  | None => acts
  end.

(** ** Operations within the bounds of the board *)

(** Coordinates within [0, 10000] and stroke width within [1, 50]. *)
Definition point_in_bounds (p : Point) : Prop :=
  0 <= x p <= 10000 /\ 0 <= y p <= 10000.

Definition in_bounds (a : DrawingAction) : Prop :=
  Forall point_in_bounds (points a) /\ 1 <= strokeWidth a <= 50.

(** ** Every public method of the manager, and a run of them *)

Inductive Method :=
| CallAddAction (action : DrawingAction)
| CallGetState
| CallUpdateCollaborators (cs : list Collaborator)
| CallGetActionsSince (t : Z)
| CallOptimizeActions
| CallMergeActions (incoming : list DrawingAction) (now : Z)
| CallCreateSnapshot (now : Z)
| CallRestoreFromSnapshot (snapshot : Snapshot).

(** The call with its result dropped. *)
Definition invoke (m : Method) : M unit :=
  match m with
  | CallAddAction action => addAction action;; mret tt
  | CallGetState => getState;; mret tt
  | CallUpdateCollaborators cs => updateCollaborators cs
  | CallGetActionsSince t => getActionsSince t;; mret tt
  | CallOptimizeActions => optimizeActions
  | CallMergeActions incoming now => mergeActions incoming now
  | CallCreateSnapshot now => createSnapshot now;; mret tt
  | CallRestoreFromSnapshot snapshot => restoreFromSnapshot snapshot
  end.

Fixpoint invoke_all (ms : list Method) : M unit :=
  match ms with
  | [] => mret tt
  | m :: rest => invoke m;; invoke_all rest
  end.

(** The calls that push into the array of the store. *)
Definition pushes (m : Method) : bool :=
  match m with
  | CallAddAction _ => true
  | _ => false
  end.

(** The roster of the store. *)
Definition store_collaborators (σ : World) : option (list Collaborator) :=
  collaborators <$> objects σ !! whiteboardState σ.

(** ** JavaScript values, for the code that inspects untyped input

    [validateAction] ([src/lib/collaboration.ts]) and [isValidPoint]
    ([src/lib/utils.ts]) take a value of type [any].  Such values are
    modelled as far as the two functions look at them: the primitive
    values, arrays and plain objects with their own properties.  A number
    is an integer or [NaN]. *)

Inductive JsNum := NaN | Num (z : Z).

Unset Elimination Schemes.
Inductive JsValue :=
| JsUndefined
| JsNull
| JsBool (b : bool)
| JsNumber (n : JsNum)
| JsString (s : string)
| JsArray (items : list JsValue)
| JsObject (props : list (string * JsValue)).
Set Elimination Schemes.

(** [typeof v] *)
Definition typeof (v : JsValue) : string :=
  match v with
  | JsUndefined => "undefined"
  | JsNull => "object"
  | JsBool _ => "boolean"
  | JsNumber _ => "number"
  | JsString _ => "string"
  | JsArray _ => "object"
  | JsObject _ => "object"
  end.

(** The conversion to a boolean made by [&&], [!] and [if]. *)
Definition truthy (v : JsValue) : bool :=
  match v with
  | JsUndefined | JsNull => false
  | JsBool b => b
  | JsNumber NaN => false
  | JsNumber (Num z) => negb (z =? 0)
  | JsString s => negb (String.eqb s "")
  | JsArray _ | JsObject _ => true
  end.

(** The first property of that name in a property list. *)
Fixpoint own_property (props : list (string * JsValue)) (k : string)
  : JsValue :=
  match props with
  | [] => JsUndefined
  | (k', v) :: rest => if String.eqb k' k then v else own_property rest k
  end.

(** [v.k], for the property names the modelled functions read ([id],
    [type], [points], [color], [strokeWidth], [timestamp], [userId], [x],
    [y]), none of which is defined by a prototype: an object gives its own
    property or [undefined], an array and a primitive value give
    [undefined], and [null] and [undefined] make the access throw a
    [TypeError], which is [None]. *)
Definition get (v : JsValue) (k : string) : option JsValue :=
  match v with
  | JsUndefined | JsNull => None
  | JsObject props => Some (own_property props k)
  | JsBool _ | JsNumber _ | JsString _ | JsArray _ => Some JsUndefined
  end.

(** [a && b]: [b] is evaluated, and may throw, only when [a] is truthy. *)
Definition js_and (a b : option JsValue) : option JsValue :=
  match a with
  | Some va => if truthy va then b else Some va
  | None => None
  end.

(** [typeof e === t] *)
Definition typeof_is (e : option JsValue) (t : string) : option JsValue :=
  match e with
  | Some v => Some (JsBool (String.eqb (typeof v) t))
  | None => None
  end.

(** [['draw', 'erase', 'clear'].includes(e)] *)
Definition is_action_type (e : option JsValue) : option JsValue :=
  match e with
  | Some (JsString s) =>
      Some (JsBool (existsb (String.eqb s) ["draw"; "erase"; "clear"]))
  | Some _ => Some (JsBool false)
  | None => None
  end.

(** [Array.isArray(e)] *)
Definition isArray (e : option JsValue) : option JsValue :=
  match e with
  | Some (JsArray _) => Some (JsBool true)
  | Some _ => Some (JsBool false)
  | None => None
  end.

(** [!isNaN(e)], for an argument that is a number (the only case in which
    [isValidPoint] reaches the call); the conversion to a number of other
    values is not modelled and they are given the answer for [undefined]. *)
Definition not_isNaN (e : option JsValue) : option JsValue :=
  match e with
  | Some (JsNumber (Num _)) => Some (JsBool true)
  | Some _ => Some (JsBool false)
  | None => None
  end.

(** [validateAction]: the value of the chain of [&&]. *)
Definition validateAction (action : JsValue) : option JsValue :=
  js_and (Some action)
    (js_and (typeof_is (Some action) "object")
    (js_and (typeof_is (get action "id") "string")
    (js_and (typeof_is (get action "type") "string")
    (js_and (is_action_type (get action "type"))
    (js_and (isArray (get action "points"))
    (js_and (typeof_is (get action "color") "string")
    (js_and (typeof_is (get action "strokeWidth") "number")
    (js_and (typeof_is (get action "timestamp") "number")
            (typeof_is (get action "userId") "string"))))))))).

(** [isValidPoint] ([src/lib/utils.ts]) *)
Definition isValidPoint (point : JsValue) : option JsValue :=
  js_and (typeof_is (Some point) "object")
    (js_and (typeof_is (get point "x") "number")
    (js_and (typeof_is (get point "y") "number")
    (js_and (not_isNaN (get point "x"))
            (not_isNaN (get point "y"))))).

(** A [Point] and a [DrawingAction] as the JavaScript objects they are. *)
Definition point_to_js (p : Point) : JsValue :=
  JsObject [("x", JsNumber (Num (x p))); ("y", JsNumber (Num (y p)))].

Definition type_to_js (k : ActionType) : JsValue :=
  match k with
  | draw => JsString "draw"
  | erase => JsString "erase"
  | clear => JsString "clear"
  end.

Definition action_to_js (a : DrawingAction) : JsValue :=
  JsObject
    [("id", JsString (id a));
     ("type", type_to_js (type a));
     ("points", JsArray (map point_to_js (points a)));
     ("color", JsString (color a));
     ("strokeWidth", JsNumber (Num (strokeWidth a)));
     ("timestamp", JsNumber (Num (timestamp a)));
     ("userId", JsString (userId a))].

(** The shape [validateAction] asks of the properties of an object. *)
Definition action_shaped (props : list (string * JsValue)) : Prop :=
  exists i k ps c w t u,
    own_property props "id" = JsString i
    /\ own_property props "type" = JsString k
    /\ In k ["draw"; "erase"; "clear"]
    /\ own_property props "points" = JsArray ps
    /\ own_property props "color" = JsString c
    /\ own_property props "strokeWidth" = JsNumber w
    /\ own_property props "timestamp" = JsNumber t
    /\ own_property props "userId" = JsString u.


(** ** [sanitizeAction] ([src/lib/collaboration.ts])

    The collaboration hook calls it on a value that [validateAction] has
    accepted, whose [points] may hold anything and whose [strokeWidth] may
    be [NaN]; it is modelled on JavaScript values. *)

(** The conversion to a number that [Math.min] and [Math.max] make of an
    argument: [undefined] is [NaN], [null] is 0, [false] and [true] are 0
    and 1.  A string is parsed and an array or an object is converted
    through its [valueOf] and [toString]; the model does not follow these
    conversions and stops there, as it does where the code throws. *)
Definition to_number (v : JsValue) : option JsNum :=
  match v with
  | JsUndefined => Some NaN
  | JsNull => Some (Num 0)
  | JsBool b => Some (Num (if b then 1 else 0))
  | JsNumber n => Some n
  | JsString _ | JsArray _ | JsObject _ => None
  end.

(** [Math.min(a, b)] and [Math.max(a, b)] on numbers: [NaN] as soon as one
    of the two is [NaN]. *)
Definition math_min (a b : JsNum) : JsNum :=
  match a, b with
  | Num a, Num b => Num (Z.min a b)
  | _, _ => NaN
  end.

Definition math_max (a b : JsNum) : JsNum :=
  match a, b with
  | Num a, Num b => Num (Z.max a b)
  | _, _ => NaN
  end.

(** [Math.max(lo, Math.min(hi, v))] *)
Definition clamp (lo hi : Z) (v : JsValue) : option JsNum :=
  n ← to_number v;
  Some (math_max (Num lo) (math_min (Num hi) n)).

(** [point => ({ x: ..., y: ... })] *)
Definition sanitize_point (point : JsValue) : option JsValue :=
  vx ← get point "x";
  nx ← clamp 0 10000 vx;
  vy ← get point "y";
  ny ← clamp 0 10000 vy;
  Some (JsObject [("x", JsNumber nx); ("y", JsNumber ny)]).

(** [v.map(f)]: an array maps its items; no other value of the model has a
    function as its [map], and the call throws. *)
Definition array_map (f : JsValue -> option JsValue) (v : JsValue)
  : option JsValue :=
  match v with
  | JsArray items => items' ← mapM f items; Some (JsArray items')
  | _ => None
  end.

Definition sanitizeAction (action : JsValue) : option JsValue :=
  i ← get action "id";
  k ← get action "type";
  ps ← get action "points";
  ps' ← array_map sanitize_point ps;
  c ← get action "color";
  w ← get action "strokeWidth";
  w' ← clamp 1 50 w;
  t ← get action "timestamp";
  u ← get action "userId";
  Some (JsObject
          [("id", i);
           ("type", k);
           ("points", ps');
           ("color", c);
           ("strokeWidth", JsNumber w');
           ("timestamp", t);
           ("userId", u)]).




(** What [sanitizeAction] makes of an operation whose numbers are all
    integers, as a [DrawingAction] (lemma [sanitizeAction_typed]). *)
Definition sanitized (a : DrawingAction) : DrawingAction :=
  {| id := id a;
     type := type a;
     points :=
       map (fun point => {| x := Z.max 0 (Z.min 10000 (x point));
                            y := Z.max 0 (Z.min 10000 (y point)) |})
         (points a);
     color := color a;
     strokeWidth := Z.max 1 (Z.min 50 (strokeWidth a));
     timestamp := timestamp a;
     userId := userId a |}.

(** A value that [validateAction] accepts, with a [NaN] stroke width, a
    [NaN] coordinate and a point without [y], and what [sanitizeAction]
    returns for it. *)
Definition nan_stroke : JsValue :=
  JsObject
    [("id", JsString "n");
     ("type", JsString "draw");
     ("points",
      JsArray
        [JsObject [("x", JsNumber NaN); ("y", JsNumber (Num 20000))];
         JsObject [("x", JsNumber (Num (-5)))]]);
     ("color", JsString "#000000");
     ("strokeWidth", JsNumber NaN);
     ("timestamp", JsNumber (Num 1000));
     ("userId", JsString "user1")].

(** ** [src/lib/performance.ts]: path simplification and memory limits *)

(** [l.slice(start)] for an integer [start]: a negative [start] counts from
    the end, and [-0] is [0]. *)
Definition slice_from {A} (l : list A) (start : Z) : list A :=
  let len := Z.of_nat (length l) in
  let k := if start <? 0 then Z.max (len + start) 0 else Z.min start len in
  drop (Z.to_nat k) l.

(** [Math.sqrt(Math.pow(p.x - q.x, 2) + Math.pow(p.y - q.y, 2)) > tolerance]:
    a square root is not negative, and exceeds a tolerance that is not
    negative when its argument exceeds the square of the tolerance. *)
Definition farther_than (tolerance : Z) (p q : Point) : bool :=
  (tolerance <? 0)
  || (tolerance ^ 2 <? (x p - x q) ^ 2 + (y p - y q) ^ 2).

(** The loop of [CanvasOptimizer.simplifyPath] over the points between the
    first and the last. *)
Fixpoint simplify_loop (tolerance : Z) (lastPoint : Point)
    (middle : list Point) : list Point :=
  match middle with
  | [] => []
  | currentPoint :: rest =>
      if farther_than tolerance currentPoint lastPoint
      then currentPoint :: simplify_loop tolerance currentPoint rest
      else simplify_loop tolerance lastPoint rest
  end.

Definition simplifyPath (pts : list Point) (tolerance : Z) : list Point :=
  if (length pts <=? 2)%nat then pts
  else
    match pts with
    | first :: rest =>
        first :: simplify_loop tolerance first (removelast rest)
          ++ option_list (last rest)
    | [] => []
    end.

Definition MAX_POINTS_PER_ACTION : nat := 1000.
Definition OPTIMIZATION_THRESHOLD : nat := 100.

(** [{ ...action, points: ps }] *)
Definition with_points (action : DrawingAction) (ps : list Point)
  : DrawingAction :=
  {| id := id action; type := type action; points := ps;
     color := color action; strokeWidth := strokeWidth action;
     timestamp := timestamp action; userId := userId action |}.

Definition optimizeDrawingActions (acts : list DrawingAction)
  : list DrawingAction :=
  map (fun action =>
         if (MAX_POINTS_PER_ACTION <? length (points action))%nat
         then with_points action (simplifyPath (points action) 2)
         else action)
    acts.

Definition shouldOptimize (acts : list DrawingAction) : bool :=
  (OPTIMIZATION_THRESHOLD <? length acts)%nat.

Definition MAX_ACTIONS : Z := 10000.

(** [MemoryManager.cleanupOldActions]; [now] is the value of [Date.now()].
    The test [action.timestamp && ...] fails for a timestamp of [0]. *)
Definition cleanupOldActions (acts : list DrawingAction) (maxAge now : Z)
  : list DrawingAction :=
  List.filter
    (fun action =>
       negb (timestamp action =? 0) && (now - timestamp action <? maxAge))%bool
    acts.

Definition limitActions (acts : list DrawingAction) (maxCount : Z)
  : list DrawingAction :=
  if Z.of_nat (length acts) <=? maxCount then acts
  else slice_from acts (- maxCount).

(** The callback of the interval set by [MemoryManager.startPeriodicCleanup],
    with the default [maxAge] and [maxCount]: the argument of [setActions]
    when it is called. *)
Definition periodicCleanup (acts : list DrawingAction) (now : Z)
  : option (list DrawingAction) :=
  let cleaned := cleanupOldActions acts 300000 now in
  let limited := limitActions cleaned MAX_ACTIONS in
  if negb (length limited =? length acts)%nat then Some limited else None.

(** ** The error log ([ErrorHandler]) *)

Inductive ErrorType :=
| NETWORK_ERROR | WEBSOCKET_ERROR | VALIDATION_ERROR | PERMISSION_ERROR
| STORAGE_ERROR | RUNTIME_ERROR | UNKNOWN_ERROR.

Global Instance ErrorType_eq_dec : EqDecision ErrorType.
Proof. solve_decision. Defined.

Record AppError := mkAppError {
  err_type : ErrorType;
  message : string;
  code : option string;
  details : option JsValue;
  err_timestamp : Z;
  err_userId : option string;
  err_whiteboardId : option string
}.

Definition maxLogSize : Z := 100.

(** [{ ...error, timestamp: Date.now() }] *)
Definition stamped (error : AppError) (now : Z) : AppError :=
  {| err_type := err_type error; message := message error;
     code := code error; details := details error; err_timestamp := now;
     err_userId := err_userId error;
     err_whiteboardId := err_whiteboardId error |}.

(** [handleError], on the field [errorLog]; printing the error and posting
    it to the reporting service do not touch the log. *)
Definition handleError (error : AppError) (now : Z) (errorLog : list AppError)
  : list AppError :=
  let errorLog := errorLog ++ [stamped error now] in
  if maxLogSize <? Z.of_nat (length errorLog)
  then slice_from errorLog (- maxLogSize)
  else errorLog.

Definition clearErrorLog (errorLog : list AppError) : list AppError := [].

Definition getErrorsByType (k : ErrorType) (errorLog : list AppError)
  : list AppError :=
  List.filter (fun error => bool_decide (err_type error = k)) errorLog.

Definition getRecentErrors (count : Z) (errorLog : list AppError)
  : list AppError :=
  slice_from errorLog (- count).

(** What happens to the log: an error handled at a time, or a clearing. *)
Inductive LogEvent :=
| Handle (error : AppError) (now : Z)
| Clear.

Definition log_step (errorLog : list AppError) (e : LogEvent) : list AppError :=
  match e with
  | Handle error now => handleError error now errorLog
  | Clear => clearErrorLog errorLog
  end.

(** ** Reconnection of the WebSocket manager *)

Definition maxReconnectAttempts : Z := 5.
Definition reconnectDelay : Z := 1000.

(** [handleReconnect] on the field [reconnectAttempts]: the new value of
    the field and the delay of the timer it sets, if it sets one. *)
Definition handleReconnect (reconnectAttempts : Z) : Z * option Z :=
  if reconnectAttempts <? maxReconnectAttempts then
    (reconnectAttempts + 1,
     Some (reconnectDelay * 2 ^ (reconnectAttempts + 1 - 1)))
  else (reconnectAttempts, None).

(** The socket events the manager reacts to. *)
Inductive SocketEvent :=
| Connected
| Disconnected (reason : string).

(** The handlers of ['connect'] and ['disconnect']. *)
Definition on_socket_event (reconnectAttempts : Z) (e : SocketEvent)
  : Z * option Z :=
  match e with
  | Connected => (0, None)
  | Disconnected reason =>
      if String.eqb reason "io server disconnect"
      then (reconnectAttempts, None)
      else handleReconnect reconnectAttempts
  end.

(** The delays of the timers set along a sequence of events. *)
Fixpoint socket_run (reconnectAttempts : Z) (es : list SocketEvent)
  : Z * list Z :=
  match es with
  | [] => (reconnectAttempts, [])
  | e :: rest =>
      let '(attempts, timer) := on_socket_event reconnectAttempts e in
      let '(final, timers) := socket_run attempts rest in
      (final, option_list timer ++ timers)
  end.

(** ** The state updaters of the [useWhiteboard] hook

    The hook keeps the document and the roster as React state, replaced by
    the value an updater returns; the document is then a value. *)

Record Board := mkBoard {
  board_id : string;
  board_name : string;
  board_actions : list DrawingAction;
  board_lastModified : Z;
  board_createdBy : string;
  board_collaborators : list Collaborator
}.

(** The updater of [handleRemoteAction]; [None] is the [null] state. *)
Definition remoteAction_update (action : DrawingAction) (prev : option Board)
  : option Board :=
  match prev with
  | None => None
  | Some b =>
      let actionExists :=
        existsb (fun a => String.eqb (id a) (id action)) (board_actions b) in
      if actionExists then Some b
      else Some {| board_id := board_id b; board_name := board_name b;
                   board_actions := board_actions b ++ [action];
                   board_lastModified := timestamp action;
                   board_createdBy := board_createdBy b;
                   board_collaborators := board_collaborators b |}
  end.

(** The operation list computed by the updater of [handleStateSync]:
    [prev] is [prev?.actions || []] and [incoming] is [state.actions]. *)
Definition stateSync_actions (prev incoming : list DrawingAction)
  : list DrawingAction :=
  let existingActionIds := map id prev in
  let newActions :=
    List.filter
      (fun a => negb (existsb (String.eqb (id a)) existingActionIds))
      incoming in
  sort byTimestamp (prev ++ newActions).

Definition stateSync_update (state : Board) (prev : option Board)
  : option Board :=
  Some {| board_id := board_id state; board_name := board_name state;
          board_actions :=
            stateSync_actions
              (match prev with Some b => board_actions b | None => [] end)
              (board_actions state);
          board_lastModified := board_lastModified state;
          board_createdBy := board_createdBy state;
          board_collaborators := board_collaborators state |}.

(** [{ ...user, isActive: true }] *)
Definition activated (user : Collaborator) : Collaborator :=
  {| c_id := c_id user; c_name := c_name user; c_color := c_color user;
     cursor := cursor user; isActive := true; lastSeen := lastSeen user |}.

(** [{ ...collaborator, isActive: false, lastSeen: Date.now() }] *)
Definition deactivated (c : Collaborator) (now : Z) : Collaborator :=
  {| c_id := c_id c; c_name := c_name c; c_color := c_color c;
     cursor := cursor c; isActive := false; lastSeen := now |}.

(** The updater of [handleUserJoin]. *)
Definition userJoin_update (user : Collaborator) (prev : list Collaborator)
  : list Collaborator :=
  match List.find (fun c => String.eqb (c_id c) (c_id user)) prev with
  | Some _ =>
      map (fun c => if String.eqb (c_id c) (c_id user) then activated user
                    else c)
        prev
  | None => prev ++ [activated user]
  end.

(** The updater of [handleUserLeave]; [clock i] is the value of
    [Date.now()] when the element of index [i] is visited. *)
Definition userLeave_update (userId : string) (clock : nat -> Z)
    (prev : list Collaborator) : list Collaborator :=
  imap (fun i c => if String.eqb (c_id c) userId then deactivated c (clock i)
                   else c)
    prev.

(** ** The route [pages/api/whiteboards/[id].ts]

    The module keeps its whiteboards in a [Map] of its own, here
    [storage].  The values it stores are built from the request body, so
    they are JavaScript objects.  Nothing inside the [try] blocks of the
    handlers throws on the values modelled, so their [catch] branches (the
    answer 500) have no counterpart here. *)

(** [o.k = v] on a property list: the value of an existing property is
    replaced where it stands, a new property goes to the end. *)
Fixpoint set_property (props : list (string * JsValue)) (k : string)
    (v : JsValue) : list (string * JsValue) :=
  match props with
  | [] => [(k, v)]
  | (k', v') :: rest =>
      if String.eqb k' k then (k', v) :: rest
      else (k', v') :: set_property rest k v
  end.

(** The own properties copied by [{ ...v }] for an object or an array (the
    values spread by the route are of these two kinds). *)
Definition own_entries (v : JsValue) : list (string * JsValue) :=
  match v with
  | JsObject props => props
  | JsArray items => imap (fun i item => (pretty i, item)) items
  | _ => []
  end.

Definition assign (target source : list (string * JsValue))
  : list (string * JsValue) :=
  fold_left (fun acc kv => set_property acc (fst kv) (snd kv)) source target.

Record ApiRequest := mkRequest {
  req_method : option string;
  req_query_id : JsValue;
  req_body : JsValue
}.

Record ApiResponse := mkResponse {
  res_status : Z;
  res_allow : option (list string);
  res_json : JsValue
}.

Definition error_json (msg : string) : JsValue :=
  JsObject [("error", JsString msg)].

Definition respond (status : Z) (json : JsValue) : ApiResponse :=
  {| res_status := status; res_allow := None; res_json := json |}.

(** [whiteboardStorage.get(id)] *)
Definition storage_get (storage : gmap string JsValue) (k : string)
  : JsValue :=
  default JsUndefined (storage !! k).

Definition handleGetWhiteboard (k : string) (storage : gmap string JsValue)
  : ApiResponse * gmap string JsValue :=
  let whiteboard := storage_get storage k in
  if negb (truthy whiteboard)
  then (respond 404 (error_json "Whiteboard not found"), storage)
  else (respond 200 whiteboard, storage).

Definition handleUpdateWhiteboard (req : ApiRequest) (k : string) (now : Z)
    (storage : gmap string JsValue) : ApiResponse * gmap string JsValue :=
  let updates := req_body req in
  if negb (truthy updates) || negb (String.eqb (typeof updates) "object")
  then (respond 400 (error_json "Invalid request body"), storage)
  else
    let existingWhiteboard := storage_get storage k in
    if negb (truthy existingWhiteboard)
    then (respond 404 (error_json "Whiteboard not found"), storage)
    else
      let updatedWhiteboard :=
        assign
          (assign (assign [] (own_entries existingWhiteboard))
             (own_entries updates))
          [("id", JsString k); ("lastModified", JsNumber (Num now))] in
      if negb (truthy (own_property updatedWhiteboard "name"))
         || negb (truthy (own_property updatedWhiteboard "actions"))
         || negb (truthy (own_property updatedWhiteboard "createdBy"))
      then (respond 400 (error_json "Missing required fields"), storage)
      else (respond 200 (JsObject updatedWhiteboard),
            <[k := JsObject updatedWhiteboard]> storage).

Definition handleDeleteWhiteboard (k : string) (storage : gmap string JsValue)
  : ApiResponse * gmap string JsValue :=
  let whiteboard := storage_get storage k in
  if negb (truthy whiteboard)
  then (respond 404 (error_json "Whiteboard not found"), storage)
  else (respond 200
          (JsObject [("message", JsString "Whiteboard deleted successfully")]),
        delete k storage).

(** The text of [req.method] inside a template literal. *)
Definition method_text (m : option string) : string :=
  default "undefined" m.

(** [req.method === m], a case of the [switch]. *)
Definition method_is (method : option string) (m : string) : bool :=
  match method with
  | Some m' => String.eqb m' m
  | None => false
  end.

(** The default export of the module; [now] is the value of [Date.now()]. *)
Definition whiteboard_handler (req : ApiRequest) (now : Z)
    (storage : gmap string JsValue) : ApiResponse * gmap string JsValue :=
  match req_query_id req with
  | JsString k =>
      if negb (truthy (JsString k))
      then (respond 400 (error_json "Whiteboard ID is required"), storage)
      else if method_is (req_method req) "GET"
      then handleGetWhiteboard k storage
      else if method_is (req_method req) "PUT"
      then handleUpdateWhiteboard req k now storage
      else if method_is (req_method req) "DELETE"
      then handleDeleteWhiteboard k storage
      else
        ({| res_status := 405;
            res_allow := Some ["GET"; "PUT"; "DELETE"];
            res_json :=
              error_json
                (String.append "Method "
                   (String.append (method_text (req_method req))
                      " not allowed")) |},
         storage)
  | _ => (respond 400 (error_json "Whiteboard ID is required"), storage)
  end.

(** The requests served one after the other. *)
Fixpoint serve (reqs : list (ApiRequest * Z)) (storage : gmap string JsValue)
  : list ApiResponse * gmap string JsValue :=
  match reqs with
  | [] => ([], storage)
  | (req, now) :: rest =>
      let '(res, storage1) := whiteboard_handler req now storage in
      let '(ress, storage2) := serve rest storage1 in
      (res :: ress, storage2)
  end.

(** ** Properties of the array helpers *)

Section ArrayFacts.
Context {A : Type}.
Implicit Types (l out : list A) (keep : A -> bool).

Lemma fold_push_if keep l out :
  fold_left (push_if keep) l out = out ++ List.filter keep l.
Proof.
  revert out. induction l as [|a l IH]; intros out; simpl.
  - by rewrite app_nil_r.
  - rewrite IH. unfold push_if. destruct (keep a); simpl; [|done].
    by rewrite <- app_assoc.
Qed.

(** The push loop is [filter]. *)
Lemma collect_filter keep l : collect keep l = List.filter keep l.
Proof. unfold collect. by rewrite fold_push_if. Qed.

Lemma In_collect keep l a : In a (collect keep l) <-> In a l /\ keep a = true.
Proof. rewrite collect_filter. apply filter_In. Qed.

Lemma insert_sorted_perm (cmp : A -> A -> Z) a l :
  Permutation (insert_sorted cmp a l) (a :: l).
Proof.
  induction l as [|b l IH]; simpl; [done|].
  destruct (cmp a b <=? 0); [done|].
  rewrite IH. apply perm_swap.
Qed.

Lemma sort_perm (cmp : A -> A -> Z) l : Permutation (sort cmp l) l.
Proof.
  induction l as [|a l IH]; simpl; [done|].
  rewrite insert_sorted_perm. by constructor.
Qed.

Lemma In_sort (cmp : A -> A -> Z) l a : In a (sort cmp l) <-> In a l.
Proof.
  split; apply Permutation_in; [|symmetry]; apply sort_perm.
Qed.
End ArrayFacts.

Lemma insert_sorted_asc a l :
  sorted_asc l -> sorted_asc (insert_sorted byTimestamp a l).
Proof.
  unfold sorted_asc. induction l as [|b l IH]; intros Hs; simpl.
  - repeat constructor.
  - apply StronglySorted_cons in Hs as [Hb Hl].
    destruct (Z.leb_spec (byTimestamp a b) 0) as [Hle|Hgt];
      unfold byTimestamp in *.
    + apply StronglySorted_cons. split.
      * constructor; [unfold ts_le; lia|].
        eapply Forall_impl; [exact Hb|]. intros c Hc. unfold ts_le in *. lia.
      * by apply StronglySorted_cons.
    + apply StronglySorted_cons. split; [|by apply IH].
      apply Forall_forall. intros c Hc. apply list_elem_of_In in Hc.
      apply (Permutation_in _ (insert_sorted_perm byTimestamp a l)) in Hc.
      destruct Hc as [<-|Hc]; [unfold ts_le; lia|].
      rewrite Forall_forall in Hb. apply Hb. by apply list_elem_of_In.
Qed.

(** [sort] by timestamp yields an ascending array. *)
Lemma sort_sorted_asc l : sorted_asc (sort byTimestamp l).
Proof.
  induction l as [|a l IH]; simpl; [constructor|].
  by apply insert_sorted_asc.
Qed.

Lemma insert_sorted_head a l :
  Forall (ts_le a) l -> insert_sorted byTimestamp a l = a :: l.
Proof.
  destruct l as [|b l]; [done|]. intros Hall. simpl.
  apply Forall_cons in Hall as [Hab _]. unfold ts_le, byTimestamp in *.
  destruct (Z.leb_spec (timestamp a - timestamp b) 0); [done|lia].
Qed.

(** Sorting an ascending array leaves it as it is. *)
Lemma sort_sorted_id l : sorted_asc l -> sort byTimestamp l = l.
Proof.
  unfold sorted_asc. induction l as [|a l IH]; intros Hs; simpl; [done|].
  apply StronglySorted_cons in Hs as [Ha Hl].
  rewrite IH by done. by apply insert_sorted_head.
Qed.

(** Stability: the operations of one timestamp keep their order. *)
Lemma insert_sorted_stable t a l :
  List.filter (fun b => timestamp b =? t) (insert_sorted byTimestamp a l)
  = List.filter (fun b => timestamp b =? t) (a :: l).
Proof.
  induction l as [|b l IH]; [done|]. simpl in *.
  destruct (Z.leb_spec (byTimestamp a b) 0) as [Hle|Hgt]; [done|].
  simpl. rewrite IH. unfold byTimestamp in Hgt.
  destruct (Z.eqb_spec (timestamp a) t), (Z.eqb_spec (timestamp b) t);
    try done; lia.
Qed.

Lemma sort_stable t l :
  List.filter (fun b => timestamp b =? t) (sort byTimestamp l)
  = List.filter (fun b => timestamp b =? t) l.
Proof.
  induction l as [|a l IH]; [done|]. simpl sort.
  rewrite insert_sorted_stable. simpl. by rewrite IH.
Qed.

Lemma sorted_asc_filter (f : DrawingAction -> bool) l :
  sorted_asc l -> sorted_asc (List.filter f l).
Proof.
  unfold sorted_asc. induction l as [|a l IH]; intros Hs; simpl; [done|].
  apply StronglySorted_cons in Hs as [Ha Hl].
  destruct (f a); [|by apply IH].
  apply StronglySorted_cons. split; [|by apply IH].
  apply Forall_forall. intros b Hb. apply list_elem_of_In, filter_In in Hb.
  rewrite Forall_forall in Ha. apply Ha, list_elem_of_In, Hb.
Qed.

(** In an ascending array the last element is a greatest one. *)
Lemma sorted_asc_last l c a :
  sorted_asc l -> last l = Some c -> In a l -> timestamp a <= timestamp c.
Proof.
  unfold sorted_asc. intros Hs Hlast Hin.
  apply last_Some in Hlast as [l' ->].
  apply in_app_or in Hin as [Hin|[<-|[]]]; [|lia].
  apply StronglySorted_app in Hs as (Hall & _ & _).
  apply (Hall a c); [by apply list_elem_of_In | set_solver].
Qed.

(** ** Properties of conflict detection and resolution *)

Lemma findConflicts_filter acts newAction :
  findConflicts acts newAction = List.filter (conflictsWith newAction) acts.
Proof. apply collect_filter. Qed.

(** The four branches of [resolveConflicts] assign the same value. *)
Lemma resolveStep_eq newAction resolved c :
  resolveStep newAction resolved c
  = set_timestamp resolved (Z.max (timestamp c + 1) (timestamp newAction)).
Proof. unfold resolveStep. repeat case_match; reflexivity. Qed.

Lemma resolveConflicts_snoc newAction cs c :
  resolveConflicts newAction (cs ++ [c])
  = set_timestamp (resolveConflicts newAction cs)
      (Z.max (timestamp c + 1) (timestamp newAction)).
Proof.
  unfold resolveConflicts. rewrite fold_left_app. simpl.
  apply resolveStep_eq.
Qed.

(** Every iteration overwrites the timestamp from [newAction.timestamp], so
    only the last conflicting operation counts. *)
Lemma resolveConflicts_last newAction cs :
  resolveConflicts newAction cs
  = match last cs with
    | Some c =>
        set_timestamp newAction (Z.max (timestamp c + 1) (timestamp newAction))
    | None => newAction
    end.
Proof.
  induction cs as [|c cs IH] using rev_ind; [done|].
  rewrite resolveConflicts_snoc, last_snoc, IH.
  by destruct (last cs).
Qed.

Lemma spec_timestamp_ge_candidate candidate cs :
  timestamp candidate <= spec_timestamp candidate cs.
Proof. induction cs as [|c cs IH]; simpl; lia. Qed.

Lemma spec_timestamp_gt candidate cs e :
  In e cs -> timestamp e < spec_timestamp candidate cs.
Proof.
  induction cs as [|c cs IH]; simpl; [done|].
  intros [->|Hin]; [lia|]. specialize (IH Hin). lia.
Qed.

Lemma spec_timestamp_attained candidate cs :
  spec_timestamp candidate cs = timestamp candidate
  \/ exists e, In e cs /\ spec_timestamp candidate cs = timestamp e + 1.
Proof.
  induction cs as [|c cs IH]; simpl; [by left|].
  destruct (Z.max_spec (spec_timestamp candidate cs) (timestamp c + 1))
    as [[_ ->]|[_ ->]].
  - right. exists c. by split; [left|].
  - destruct IH as [IH|(e & He & IH)]; [by left|].
    right. exists e. by split; [right|].
Qed.

(** On an ascending list of conflicts the code computes the specified
    timestamp. *)
Lemma resolveConflicts_sorted newAction cs :
  sorted_asc cs ->
  timestamp (resolveConflicts newAction cs) = spec_timestamp newAction cs.
Proof.
  intros Hs. rewrite resolveConflicts_last.
  destruct (last cs) as [c|] eqn:Hlast.
  - simpl.
    pose proof (spec_timestamp_ge_candidate newAction cs) as Hge.
    assert (In c cs) as Hc.
    { apply last_Some in Hlast as [l' ->]. apply in_or_app. right. by left. }
    pose proof (spec_timestamp_gt newAction cs c Hc) as Hgt.
    destruct (spec_timestamp_attained newAction cs) as [Heq|(e & He & Heq)];
      [lia|].
    pose proof (sorted_asc_last cs c e Hs Hlast He). lia.
  - apply last_None in Hlast as ->. reflexivity.
Qed.

Lemma stored_action_result acts action :
  stored_action action (result_of acts action) = stored_of acts action.
Proof.
  unfold stored_action, result_of, stored_of.
  by destruct (0 <? length (findConflicts acts action))%nat.
Qed.

Lemma stored_of_timestamp acts action :
  timestamp (stored_of acts action)
  = match last (findConflicts acts action) with
    | Some c => Z.max (timestamp c + 1) (timestamp action)
    | None => timestamp action
    end.
Proof.
  unfold stored_of.
  destruct (findConflicts acts action) as [|c cs] eqn:Hcs; [done|].
  change (0 <? length (c :: cs))%nat with true. cbv iota.
  rewrite resolveConflicts_last. by destruct (last (c :: cs)).
Qed.

Lemma stored_of_sorted acts action :
  sorted_asc acts ->
  timestamp (stored_of acts action)
  = spec_timestamp action (findConflicts acts action).
Proof.
  intros Hs. unfold stored_of.
  destruct (findConflicts acts action) as [|c cs] eqn:Hcs; [done|].
  change (0 <? length (c :: cs))%nat with true. cbv iota.
  apply resolveConflicts_sorted. rewrite <- Hcs, findConflicts_filter.
  by apply sorted_asc_filter.
Qed.

(** ** The methods, run on a world whose store is in place *)

(** Resolves the heap accesses of an unfolded method, one after the other. *)
Ltac heap_steps :=
  repeat (simpl;
          match goal with
          | H : _ !! _ = Some _ |- _ => rewrite H
          | |- _ => rewrite lookup_insert_eq
          | |- _ => rewrite insert_insert_eq
          end).

Section Runs.
Variables (σ : World) (ws : WhiteboardState) (acts : list DrawingAction).
Hypothesis Hobj : objects σ !! whiteboardState σ = Some ws.
Hypothesis Harr : arrays σ !! actions ws = Some acts.

Lemma applyAction_run action :
  applyAction action σ
  = Some (tt,
      {| arrays := <[actions ws := sort byTimestamp (acts ++ [action])]> (arrays σ);
         objects := <[whiteboardState σ := with_lastModified ws (timestamp action)]> (objects σ);
         whiteboardState := whiteboardState σ |}).
Proof.
  unfold applyAction, mbind, M_bind, this_ref, read_object, read_array,
    write_array, write_object.
  by heap_steps.
Qed.

Lemma addAction_run action :
  addAction action σ
  = Some (result_of acts action,
      {| arrays := <[actions ws := sort byTimestamp (acts ++ [stored_of acts action])]> (arrays σ);
         objects := <[whiteboardState σ := with_lastModified ws (timestamp (stored_of acts action))]> (objects σ);
         whiteboardState := whiteboardState σ |}).
Proof.
  unfold addAction, mbind, M_bind at 1 2 3, this_ref, read_object, read_array.
  heap_steps. unfold result_of, stored_of.
  destruct (0 <? length (findConflicts acts action))%nat;
    unfold M_bind; rewrite applyAction_run; reflexivity.
Qed.

Lemma optimizeActions_run :
  optimizeActions σ
  = Some (tt,
      {| arrays := <[fresh (dom (arrays σ)) := optimized_of acts]> (arrays σ);
         objects := <[whiteboardState σ := with_actions ws (fresh (dom (arrays σ)))]> (objects σ);
         whiteboardState := whiteboardState σ |}).
Proof.
  unfold optimizeActions, mbind, M_bind, this_ref, read_object, read_array,
    new_array, write_object.
  by heap_steps.
Qed.

Lemma mergeActions_run incoming now :
  mergeActions incoming now σ
  = Some (tt,
      {| arrays := <[fresh (dom (arrays σ)) := merged_of acts incoming]> (arrays σ);
         objects := <[whiteboardState σ :=
                        with_lastModified (with_actions ws (fresh (dom (arrays σ)))) now]>
                      (objects σ);
         whiteboardState := whiteboardState σ |}).
Proof.
  unfold mergeActions, mbind, M_bind, this_ref, read_object, read_array,
    new_array, write_object.
  by heap_steps.
Qed.

Lemma getState_run :
  getState σ
  = Some (fresh (dom (objects σ)),
      {| arrays := arrays σ;
         objects := <[fresh (dom (objects σ)) := ws]> (objects σ);
         whiteboardState := whiteboardState σ |}).
Proof.
  unfold getState, mbind, M_bind, this_ref, read_object, new_object.
  by heap_steps.
Qed.
End Runs.

Lemma store_actions_inv σ acts :
  store_actions σ = Some acts ->
  exists ws, objects σ !! whiteboardState σ = Some ws
             /\ arrays σ !! actions ws = Some acts.
Proof.
  unfold store_actions, actions_at.
  destruct (objects σ !! whiteboardState σ) as [ws|]; [|done]. eauto.
Qed.

(** [addAction] on a store holding [acts]. *)
Lemma addAction_store σ acts action :
  store_actions σ = Some acts ->
  exists σ',
    addAction action σ = Some (result_of acts action, σ')
    /\ store_actions σ' = Some (sort byTimestamp (acts ++ [stored_of acts action]))
    /\ store_lastModified σ' = Some (timestamp (stored_of acts action)).
Proof.
  intros (ws & Hobj & Harr)%store_actions_inv. eexists. split.
  - by apply addAction_run.
  - unfold store_actions, actions_at, store_lastModified. by heap_steps.
Qed.

(** [optimizeActions] on a store holding [acts]. *)
Lemma optimizeActions_store σ acts :
  store_actions σ = Some acts ->
  exists σ',
    optimizeActions σ = Some (tt, σ')
    /\ store_actions σ' = Some (optimized_of acts)
    /\ store_lastModified σ' = store_lastModified σ.
Proof.
  intros (ws & Hobj & Harr)%store_actions_inv. eexists. split.
  - by eapply optimizeActions_run.
  - unfold store_actions, actions_at, store_lastModified. by heap_steps.
Qed.

(** [mergeActions] on a store holding [acts]. *)
Lemma mergeActions_store σ acts incoming now :
  store_actions σ = Some acts ->
  exists σ',
    mergeActions incoming now σ = Some (tt, σ')
    /\ store_actions σ' = Some (merged_of acts incoming)
    /\ store_lastModified σ' = Some now.
Proof.
  intros (ws & Hobj & Harr)%store_actions_inv. eexists. split.
  - by eapply mergeActions_run.
  - unfold store_actions, actions_at, store_lastModified. by heap_steps.
Qed.

(** ** Compaction *)

Lemma isClear_true a : isClear a = true <-> type a = clear.
Proof. unfold isClear. destruct (type a); simpl; split; congruence. Qed.

Lemma filter_filter_andb {A} (f g : A -> bool) l :
  List.filter f (List.filter g l) = List.filter (fun a => g a && f a)%bool l.
Proof.
  induction l as [|a l IH]; [done|]. simpl.
  destruct (g a); simpl; [|done]. destruct (f a); by rewrite IH.
Qed.

Lemma filter_all {A} (f : A -> bool) l :
  (forall a, In a l -> f a = true) -> List.filter f l = l.
Proof.
  induction l as [|a l IH]; intros Hall; [done|]. simpl.
  rewrite (Hall a) by (by left). f_equal. apply IH. intros b Hb.
  apply Hall. by right.
Qed.

Lemma filter_all_false {A} (f : A -> bool) l :
  (forall a, In a l -> f a = false) -> List.filter f l = [].
Proof.
  induction l as [|a l IH]; intros Hall; [done|]. simpl.
  rewrite (Hall a) by (by left). apply IH. intros b Hb. apply Hall. by right.
Qed.

Lemma filter_none {A} (f : A -> bool) l :
  List.filter f l = [] -> forall a, In a l -> f a = false.
Proof.
  induction l as [|b l IH]; [done|]. simpl.
  destruct (f b) eqn:Hb; [done|]. intros Hnil a [<-|Hin]; auto.
Qed.

(** The code computes the compaction of the specification. *)
Lemma optimized_of_spec acts : optimized_of acts = spec_optimize acts.
Proof.
  unfold optimized_of, spec_optimize, latestClear. rewrite !collect_filter.
  change (fun a => type_eqb (type a) clear) with isClear.
  change (fun a => negb (type_eqb (type a) clear))
    with (fun a => negb (isClear a)).
  destruct (List.filter isClear acts) as [|c cs] eqn:Hcs.
  - simpl. apply filter_all. intros a Ha.
    by rewrite (filter_none _ _ Hcs a Ha).
  - change (0 <? length (c :: cs))%nat with true. cbv iota.
    destruct (last (c :: cs)) as [c'|] eqn:Hlast;
      [|by apply last_None in Hlast].
    by rewrite filter_filter_andb.
Qed.

Lemma latestClear_In acts c :
  latestClear acts = Some c -> In c acts /\ type c = clear.
Proof.
  unfold latestClear. intros [l' Hl]%last_Some.
  assert (In c (List.filter isClear acts)) as Hin.
  { rewrite Hl. apply in_or_app. right. by left. }
  apply filter_In in Hin as [? ?]. by rewrite <- isClear_true.
Qed.

Lemma latestClear_None acts :
  latestClear acts = None -> forall a, In a acts -> type a <> clear.
Proof.
  unfold latestClear. intros Hnil%last_None a Ha Hc.
  apply (proj2 (isClear_true a)) in Hc.
  pose proof (filter_none _ _ Hnil a Ha). congruence.
Qed.

(** In an ascending list the latest [Clear] has the greatest timestamp of
    all [Clear]s. *)
Lemma latestClear_greatest acts c c' :
  sorted_asc acts -> latestClear acts = Some c ->
  In c' acts -> type c' = clear -> timestamp c' <= timestamp c.
Proof.
  intros Hs Hlast Hin Hc.
  apply (sorted_asc_last (List.filter isClear acts)); [|done|].
  - by apply sorted_asc_filter.
  - apply filter_In. split; [done|]. by apply isClear_true.
Qed.

(** Compacting twice is compacting once. *)
Lemma spec_optimize_idem acts :
  spec_optimize (spec_optimize acts) = spec_optimize acts.
Proof.
  unfold spec_optimize at 2 3.
  destruct (latestClear acts) as [c|] eqn:Hc; [|by unfold spec_optimize; rewrite Hc].
  apply latestClear_In in Hc as [_ Hc%isClear_true].
  set (rest := List.filter _ acts).
  assert (forall a, In a rest ->
            (negb (isClear a) && (timestamp c <? timestamp a))%bool = true)
    as Hrest by (intros a Ha; by apply filter_In in Ha as [_ ?]).
  assert (List.filter isClear rest = []) as Hnone.
  { apply filter_all_false. intros a Ha. specialize (Hrest a Ha).
    by destruct (isClear a). }
  unfold spec_optimize, latestClear. cbn [List.filter].
  rewrite Hc, Hnone. change (last [c]) with (Some c).
  cbn [negb andb]. f_equal. by apply filter_all.
Qed.

Lemma spec_optimize_sorted acts :
  sorted_asc acts -> sorted_asc (spec_optimize acts).
Proof.
  intros Hs. unfold spec_optimize.
  destruct (latestClear acts) as [c|]; [|done].
  apply StronglySorted_cons. split; [|by apply sorted_asc_filter].
  apply Forall_forall. intros a Ha.
  apply list_elem_of_In, filter_In in Ha as [_ Ha].
  apply andb_prop in Ha as [_ Ha%Z.ltb_lt]. unfold ts_le. lia.
Qed.

(** ** Merge *)

Section FindIndex.
Context {A : Type} (p : A -> bool).

Lemma findIndex_from_found l i :
  existsb p l = true ->
  i <= findIndex_from p l i < i + Z.of_nat (length l).
Proof.
  revert i. induction l as [|a l IH]; intros i; simpl; [done|].
  destruct (p a); simpl; [lia|]. intros Hex. specialize (IH (i + 1) Hex). lia.
Qed.

Lemma findIndex_from_app pre l i :
  existsb p pre = false ->
  findIndex_from p (pre ++ l) i = findIndex_from p l (i + Z.of_nat (length pre)).
Proof.
  revert i. induction pre as [|a pre IH]; intros i; simpl.
  - intros _. f_equal. lia.
  - destruct (p a); simpl; [done|]. intros Hex. rewrite IH by done.
    f_equal. lia.
Qed.

(** The element at index [length pre] is the first to satisfy [p] exactly
    when nothing in front of it does. *)
Lemma findIndex_here pre a rest :
  p a = true ->
  (Z.of_nat (length pre) =? findIndex p (pre ++ a :: rest))
  = negb (existsb p pre).
Proof.
  intros Ha. unfold findIndex. destruct (existsb p pre) eqn:Hex; simpl.
  - apply Z.eqb_neq. intros Heq.
    assert (existsb p (pre ++ a :: rest) = true) as Hex'
      by (rewrite existsb_app, Hex; done).
    pose proof (findIndex_from_found pre 0 Hex) as Hpre.
    assert (findIndex_from p (pre ++ a :: rest) 0 = findIndex_from p pre 0)
      as Hsame.
    { clear -Hex. generalize 0. induction pre as [|b pre IH]; intros i;
        simpl in *; [done|]. destruct (p b); [done|]. by apply IH. }
    lia.
  - rewrite findIndex_from_app by done. simpl. rewrite Ha.
    apply Z.eqb_eq. lia.
Qed.
End FindIndex.

Lemma existsb_id_eqb s l :
  existsb (String.eqb s) l = true <-> In s l.
Proof.
  rewrite existsb_exists. split.
  - intros (s' & Hin & ->%String.eqb_eq). done.
  - intros Hin. exists s. split; [done|]. apply String.eqb_refl.
Qed.

Lemma existsb_same_id (a : DrawingAction) pre :
  existsb (fun a' => String.eqb (id a') (id a)) pre = true
  <-> In (id a) (map id pre).
Proof.
  rewrite existsb_exists, in_map_iff. split.
  - intros (b & Hin & Heq%String.eqb_eq). eauto.
  - intros (b & Heq & Hin). exists b. split; [done|]. by apply String.eqb_eq.
Qed.

Lemma filter_from_keep_first pre l seen :
  (forall s, In s seen <-> In s (map id pre)) ->
  filter_from
    (fun action index self =>
       index =? findIndex (fun a => String.eqb (id a) (id action)) self)
    (pre ++ l) l (Z.of_nat (length pre))
  = keep_first_by_id seen l.
Proof.
  revert pre seen. induction l as [|a l IH]; intros pre seen Hseen; [done|].
  simpl. rewrite findIndex_here by apply String.eqb_refl.
  assert (existsb (fun a' => String.eqb (id a') (id a)) pre
          = existsb (String.eqb (id a)) seen) as ->.
  { apply eq_true_iff_eq. rewrite existsb_same_id, existsb_id_eqb.
    symmetry. apply Hseen. }
  replace (pre ++ a :: l) with ((pre ++ [a]) ++ l) by (by rewrite <- app_assoc).
  replace (Z.of_nat (length pre) + 1) with (Z.of_nat (length (pre ++ [a])))
    by (rewrite length_app; simpl; lia).
  destruct (existsb (String.eqb (id a)) seen) eqn:Hex; simpl.
  - apply IH. intros s. rewrite map_app, in_app_iff, <- Hseen. simpl.
    apply existsb_id_eqb in Hex. split; [tauto|].
    intros [?|[<-|[]]]; done.
  - f_equal. apply IH. intros s. rewrite map_app, in_app_iff, <- Hseen.
    simpl. tauto.
Qed.

(** The [filter]/[findIndex] idiom of the code keeps the first operation of
    each id. *)
Lemma uniqueActions_of_spec l : uniqueActions_of l = keep_first_by_id [] l.
Proof.
  unfold uniqueActions_of, filter_indexed.
  by apply (filter_from_keep_first [] l []).
Qed.

Lemma merged_of_spec acts incoming :
  merged_of acts incoming = spec_merge acts incoming.
Proof. unfold merged_of, spec_merge. by rewrite uniqueActions_of_spec. Qed.

(** An operation is kept exactly when it stands at the first occurrence of
    its id. *)
Lemma In_keep_first seen l a :
  In a (keep_first_by_id seen l)
  <-> exists l1 l2, l = l1 ++ a :: l2 /\ ~ In (id a) seen
                    /\ ~ In (id a) (map id l1).
Proof.
  revert seen. induction l as [|b l IH]; intros seen; simpl.
  - split; [done|]. intros (l1 & l2 & Heq & _). by destruct l1.
  - destruct (existsb (String.eqb (id b)) seen) eqn:Hex.
    + apply existsb_id_eqb in Hex. rewrite IH. split.
      * intros (l1 & l2 & -> & Hs & Hl1). exists (b :: l1), l2.
        split; [done|]. split; [done|]. simpl. intros [Heq|?]; [|done].
        by rewrite Heq in Hex.
      * intros (l1 & l2 & Heq & Hs & Hl1). destruct l1 as [|b' l1].
        -- simpl in Heq. by injection Heq as -> ->.
        -- simpl in Heq. injection Heq as -> ->. exists l1, l2.
           split; [done|]. split; [done|]. intros ?. apply Hl1. by right.
    + assert (~ In (id b) seen) as Hb.
      { intros Hin%existsb_id_eqb. congruence. }
      simpl. rewrite IH. split.
      * intros [<-|(l1 & l2 & -> & Hs & Hl1)].
        -- exists [], l. simpl. split; [done|]. split; [done|tauto].
        -- exists (b :: l1), l2. split; [done|]. simpl in Hs.
           split; [tauto|]. simpl. intros [Heq|?]; [|done]. tauto.
      * intros (l1 & l2 & Heq & Hs & Hl1). destruct l1 as [|b' l1].
        -- simpl in Heq. injection Heq as -> ->. by left.
        -- simpl in Heq. injection Heq as -> ->. right. exists l1, l2.
           split; [done|]. simpl in Hl1. simpl. split; tauto.
Qed.

Lemma keep_first_incl seen l a : In a (keep_first_by_id seen l) -> In a l.
Proof.
  intros (l1 & l2 & -> & _)%In_keep_first. apply in_or_app. right. by left.
Qed.

(** After deduplication the ids are pairwise distinct. *)
Lemma keep_first_NoDup seen l :
  List.NoDup (map id (keep_first_by_id seen l))
  /\ forall a, In a (keep_first_by_id seen l) -> ~ In (id a) seen.
Proof.
  revert seen. induction l as [|b l IH]; intros seen; simpl.
  - split; [constructor|done].
  - destruct (existsb (String.eqb (id b)) seen) eqn:Hex; [apply IH|].
    destruct (IH (id b :: seen)) as [Hnd Hseen]. split.
    + simpl. constructor; [|done]. intros (a & Heq & Hin)%in_map_iff.
      apply (Hseen a Hin). by left.
    + intros a [<-|Hin].
      * intros Hin%existsb_id_eqb. congruence.
      * intros Hs. apply (Hseen a Hin). by right.
Qed.

(** ** Runs of mutating calls *)

Lemma stored_sorted acts action :
  sorted_asc (sort byTimestamp (acts ++ [stored_of acts action])).
Proof. apply sort_sorted_asc. Qed.

Lemma merged_of_sorted acts incoming : sorted_asc (merged_of acts incoming).
Proof. apply sort_sorted_asc. Qed.

Lemma optimized_of_sorted acts :
  sorted_asc acts -> sorted_asc (optimized_of acts).
Proof. rewrite optimized_of_spec. apply spec_optimize_sorted. Qed.

(** A call on a store in place returns, and keeps an ascending list
    ascending. *)
Lemma call_store c σ acts :
  store_actions σ = Some acts ->
  exists σ' acts',
    call c σ = Some (tt, σ') /\ store_actions σ' = Some acts'
    /\ (sorted_asc acts -> sorted_asc acts').
Proof.
  intros Hst. destruct c as [action|incoming now|]; simpl.
  - destruct (addAction_store σ acts action Hst) as (σ' & Hrun & Hacts & _).
    exists σ', (sort byTimestamp (acts ++ [stored_of acts action])).
    unfold mbind, M_bind. rewrite Hrun. split; [done|]. split; [done|].
    intros _. apply stored_sorted.
  - destruct (mergeActions_store σ acts incoming now Hst)
      as (σ' & Hrun & Hacts & _).
    exists σ', (merged_of acts incoming). split; [done|]. split; [done|].
    intros _. apply merged_of_sorted.
  - destruct (optimizeActions_store σ acts Hst) as (σ' & Hrun & Hacts & _).
    exists σ', (optimized_of acts). split; [done|]. split; [done|].
    apply optimized_of_sorted.
Qed.

Lemma run_store cs σ acts :
  store_actions σ = Some acts ->
  exists σ' acts',
    run cs σ = Some (tt, σ') /\ store_actions σ' = Some acts'
    /\ (sorted_asc acts -> sorted_asc acts').
Proof.
  revert σ acts. induction cs as [|c cs IH]; intros σ acts Hst; simpl.
  - exists σ, acts. by repeat split.
  - destruct (call_store c σ acts Hst) as (σ1 & acts1 & Hrun1 & Hst1 & Hs1).
    destruct (IH σ1 acts1 Hst1) as (σ2 & acts2 & Hrun2 & Hst2 & Hs2).
    exists σ2, acts2. unfold mbind, M_bind. rewrite Hrun1.
    split; [done|]. split; [done|]. auto.
Qed.

(** [addAction] returns only on a store in place. *)
Lemma addAction_Some_inv action σ res σ' :
  addAction action σ = Some (res, σ') -> exists acts, store_actions σ = Some acts.
Proof.
  unfold addAction, store_actions, actions_at, mbind, M_bind at 1 2 3,
    this_ref, read_object, read_array. simpl.
  destruct (objects σ !! whiteboardState σ) as [ws|]; [|done].
  destruct (arrays σ !! actions ws) as [acts|]; [|done]. eauto.
Qed.

(** ** Spatial conflicts, spelled out *)

Lemma any_close_to_iff p qs :
  any_close_to p qs = true
  <-> exists q, In q qs /\ distance_lt_threshold p q = true.
Proof.
  induction qs as [|q qs IH]; simpl.
  - split; [done|]. by intros (? & [] & _).
  - destruct (distance_lt_threshold p q) eqn:Hd.
    + split; [|done]. intros _. exists q. by split; [left|].
    + rewrite IH. split.
      * intros (q' & Hin & Hq'). exists q'. by split; [right|].
      * intros (q' & [<-|Hin] & Hq'); [congruence|eauto].
Qed.

Lemma any_close_iff ps qs :
  any_close ps qs = true
  <-> exists p q, In p ps /\ In q qs /\ distance_lt_threshold p q = true.
Proof.
  induction ps as [|p ps IH]; simpl.
  - split; [done|]. by intros (? & ? & [] & _).
  - destruct (any_close_to p qs) eqn:Hp.
    + split; [|done]. intros _.
      apply any_close_to_iff in Hp as (q & Hq & Hd). exists p, q.
      by split; [left|].
    + rewrite IH. split.
      * intros (p' & q & Hin & Hq). exists p', q. by split; [right|].
      * intros (p' & q & [<-|Hin] & Hq & Hd); [|eauto].
        assert (any_close_to p qs = true) by (apply any_close_to_iff; eauto).
        congruence.
Qed.

(** [hasSpatialConflict]: some point of one operation is less than 50 away
    from some point of the other. *)
Lemma hasSpatialConflict_iff a b :
  hasSpatialConflict a b = true
  <-> exists p q, In p (points a) /\ In q (points b)
                  /\ (x p - x q) ^ 2 + (y p - y q) ^ 2 < 50 ^ 2.
Proof.
  unfold hasSpatialConflict.
  destruct (points a) as [|p ps] eqn:Ha; simpl.
  { split; [done|]. by intros (? & ? & [] & _). }
  destruct (points b) as [|q qs] eqn:Hb.
  { simpl. split; [done|]. by intros (? & ? & _ & [] & _). }
  change ((length (q :: qs) =? 0)%nat) with false. cbv iota.
  change (if any_close_to p (q :: qs) then true else any_close ps (q :: qs))
    with (any_close (p :: ps) (q :: qs)).
  rewrite any_close_iff. unfold distance_lt_threshold, threshold.
  split; intros (p' & q' & Hp & Hq & Hd); exists p', q';
    (split; [done|]); (split; [done|]); by apply Z.ltb_lt.
Qed.

Lemma hasSpatialConflict_empty_l a b :
  points a = [] -> hasSpatialConflict a b = false.
Proof. unfold hasSpatialConflict. by intros ->. Qed.

Lemma hasSpatialConflict_empty_r a b :
  points b = [] -> hasSpatialConflict a b = false.
Proof.
  unfold hasSpatialConflict. intros ->. simpl. by rewrite orb_true_r.
Qed.

(** Membership in the result of [findConflicts]. *)
Lemma In_findConflicts acts newAction e :
  In e (findConflicts acts newAction)
  <-> In e acts
      /\ Z.abs (timestamp e - timestamp newAction) < 5000
      /\ hasSpatialConflict newAction e = true.
Proof.
  unfold findConflicts. rewrite In_collect. unfold conflictsWith, timeWindow.
  destruct (Z.ltb_spec (Z.abs (timestamp e - timestamp newAction)) 5000).
  - tauto.
  - split; [intros [_ ?]; done|]. intros (_ & ? & _). lia.
Qed.

(** On a sorted store, the operation stored by [addAction] is later than
    every operation it conflicts with. *)
Lemma stored_of_after_conflicts acts action e :
  sorted_asc acts -> In e (findConflicts acts action) ->
  timestamp e < timestamp (stored_of acts action).
Proof.
  intros Hs Hin. rewrite stored_of_sorted by done.
  by apply spec_timestamp_gt.
Qed.

(** ** The claims *)

(** C1 (the code departs from it).  The claim: the stored timestamp is the
    maximum of the candidate's and of [e.timestamp + 1] over all conflicting
    operations [e].  The loop of [resolveConflicts] assigns
    [max(conflict.timestamp + 1, newAction.timestamp)] at each iteration, so
    the last conflicting operation alone decides.  On a manager built on
    the list [x @ 1000; y @ 500], a draw at 400 close to both is stored at
    501, below [x], where the claim asks for 1001. *)
Theorem C1_last_conflict_decides :
  findConflicts [draw_x_1000; draw_y_500] draw_400 = [draw_x_1000; draw_y_500]
  /\ spec_timestamp draw_400 [draw_x_1000; draw_y_500] = 1001
  /\ exists σ',
       addAction draw_400 (store_with [draw_x_1000; draw_y_500])
       = Some ({| success := true; conflict := Some true;
                  resolvedAction := Some (set_timestamp draw_400 501) |}, σ')
       /\ store_actions σ'
          = Some [draw_y_500; set_timestamp draw_400 501; draw_x_1000].
Proof.
  split; [reflexivity|]. split; [reflexivity|].
  eexists. split; vm_compute; reflexivity.
Qed.

(** In general the stored timestamp is decided by the last conflicting
    operation of the list. *)
Lemma addAction_stored_timestamp σ acts action :
  store_actions σ = Some acts ->
  exists res σ',
    addAction action σ = Some (res, σ')
    /\ timestamp (stored_action action res)
       = match last (findConflicts acts action) with
         | Some c => Z.max (timestamp c + 1) (timestamp action)
         | None => timestamp action
         end.
Proof.
  intros Hst.
  destruct (addAction_store σ acts action Hst) as (σ' & Hrun & _).
  exists (result_of acts action), σ'. split; [done|].
  rewrite stored_action_result. apply stored_of_timestamp.
Qed.

(** On a store whose list is ascending the computed timestamp is the one
    of the specification. *)
Lemma addAction_sorted_store_timestamp σ acts action :
  store_actions σ = Some acts -> sorted_asc acts ->
  exists res σ',
    addAction action σ = Some (res, σ')
    /\ timestamp (stored_action action res)
       = spec_timestamp action (findConflicts acts action)
    /\ (findConflicts acts action = [] -> stored_action action res = action).
Proof.
  intros Hst Hs.
  destruct (addAction_store σ acts action Hst) as (σ' & Hrun & _).
  exists (result_of acts action), σ'. split; [done|].
  rewrite stored_action_result. split; [by apply stored_of_sorted|].
  unfold stored_of. by intros ->.
Qed.

(** C2 (the code departs from it).  The claim: a non-[Clear] candidate
    within 5000 ms of an existing [Clear] is moved after it.  A [Clear] has
    no points, [hasSpatialConflict] answers [false] for it, and the branch
    of [resolveConflicts] for clears is never reached: a draw at 900 is
    stored at 900, in front of the clear at 1000. *)
Theorem C2_draw_stays_before_clear :
  type clear_1000 = clear /\ type draw_900 <> clear
  /\ Z.abs (timestamp clear_1000 - timestamp draw_900) < 5000
  /\ Z.max (timestamp clear_1000 + 1) (timestamp draw_900) = 1001
  /\ exists σ',
       addAction draw_900 (store_with [clear_1000])
       = Some ({| success := true; conflict := Some false;
                  resolvedAction := None |}, σ')
       /\ store_actions σ' = Some [draw_900; clear_1000].
Proof.
  split; [reflexivity|]. split; [discriminate|].
  split; [reflexivity|]. split; [reflexivity|].
  eexists. split; vm_compute; reflexivity.
Qed.

(** Along [addAction], [mergeActions] and [optimizeActions] the order
    holds.  Let [a] be appended by [addAction] and, after any further calls
    of these three methods, let [b] be submitted while the operation stored
    for [a] is in the document, within 5000 ms of [b] and with a point less
    than 50 away from a point of [b].  Then [addAction b] returns, what it
    stores for [b] is in the document, and its timestamp is strictly
    greater than the stored timestamp of [a]. *)
Lemma conflicting_operation_ordered_after
    σ0 σ1 σ2 a ra cs acts b p q :
  addAction a σ0 = Some (ra, σ1) ->
  run cs σ1 = Some (tt, σ2) ->
  store_actions σ2 = Some acts ->
  In (stored_action a ra) acts ->
  Z.abs (timestamp (stored_action a ra) - timestamp b) < 5000 ->
  In p (points b) -> In q (points (stored_action a ra)) ->
  (x p - x q) ^ 2 + (y p - y q) ^ 2 < 50 ^ 2 ->
  exists rb σ3 acts3,
    addAction b σ2 = Some (rb, σ3)
    /\ conflict rb = Some true
    /\ store_actions σ3 = Some acts3
    /\ In (stored_action b rb) acts3
    /\ timestamp (stored_action a ra) < timestamp (stored_action b rb).
Proof.
  intros Hadd Hrun Hst Hin Htime Hp Hq Hdist.
  destruct (addAction_Some_inv _ _ _ _ Hadd) as [acts0 Hst0].
  destruct (addAction_store σ0 acts0 a Hst0) as (σ1' & Hadd' & Hst1 & _).
  rewrite Hadd in Hadd'. injection Hadd' as Hra <-.
  destruct (run_store cs σ1 _ Hst1) as (σ2' & acts2 & Hrun' & Hst2 & Hs2).
  rewrite Hrun in Hrun'. injection Hrun' as <-.
  rewrite Hst in Hst2. injection Hst2 as <-.
  specialize (Hs2 (stored_sorted _ _)).
  assert (In (stored_action a ra) (findConflicts acts b)) as Hconf.
  { apply In_findConflicts. split; [done|]. split; [done|].
    apply hasSpatialConflict_iff. eauto. }
  destruct (addAction_store σ2 acts b Hst) as (σ3 & Hb & Hst3 & _).
  exists (result_of acts b), σ3, (sort byTimestamp (acts ++ [stored_of acts b])).
  split; [done|]. split.
  { unfold result_of. by destruct (findConflicts acts b). }
  split; [done|]. rewrite stored_action_result. split.
  - apply In_sort, in_or_app. right. by left.
  - by apply stored_of_after_conflicts.
Qed.

(** A draw at 1000 at (10,10), then an erase at 900 at (12,12): the erase
    is stored at 1001. *)
Lemma conflicting_operation_ordered_after_example :
  exists rb σ3 acts3,
    addAction erase_900 (world_after (addAction draw_1000) (store_with []))
    = Some (rb, σ3)
    /\ conflict rb = Some true
    /\ store_actions σ3 = Some acts3
    /\ In (stored_action erase_900 rb) acts3
    /\ timestamp (stored_action draw_1000 (result_of [] draw_1000))
       < timestamp (stored_action erase_900 rb).
Proof.
  apply (conflicting_operation_ordered_after
           (store_with [])
           (world_after (addAction draw_1000) (store_with []))
           (world_after (addAction draw_1000) (store_with []))
           draw_1000 (result_of [] draw_1000) [] [draw_1000] erase_900
           (mkPoint 12 12) (mkPoint 10 10)).
  - vm_compute. reflexivity.
  - reflexivity.
  - vm_compute. reflexivity.
  - left. reflexivity.
  - vm_compute. reflexivity.
  - left. reflexivity.
  - left. reflexivity.
  - vm_compute. reflexivity.
Defined.

(** C3 (the code departs from it).  The claim: an operation [b] detected
    as conflicting with an operation [a] appended before it is stored
    strictly after [a].  [resolveConflicts] lets the last conflicting
    operation of the list decide (the defect of C1), so the order is lost
    when the document is not sorted: a draw [x] at 1000 is appended by
    [addAction], a snapshot listing [x @ 1000; y @ 500] is restored, and a
    draw at 400 that conflicts with both is stored at 501, before [x]. *)
Theorem C3_order_lost_on_unsorted_document :
  exists ra σ1 σ2 rb σ3,
    addAction draw_x_1000 store_beside_unsorted = Some (ra, σ1)
    /\ stored_action draw_x_1000 ra = draw_x_1000
    /\ restoreFromSnapshot {| state := 2%positive; snap_timestamp := 0 |} σ1
       = Some (tt, σ2)
    /\ store_actions σ2 = Some [draw_x_1000; draw_y_500]
    /\ In (stored_action draw_x_1000 ra)
         (findConflicts [draw_x_1000; draw_y_500] draw_400)
    /\ addAction draw_400 σ2 = Some (rb, σ3)
    /\ conflict rb = Some true
    /\ stored_action draw_400 rb = set_timestamp draw_400 501
    /\ store_actions σ3
       = Some [draw_y_500; set_timestamp draw_400 501; draw_x_1000]
    /\ ~ (timestamp (stored_action draw_x_1000 ra)
          < timestamp (stored_action draw_400 rb)).
Proof.
  eexists _, _, _, _, _.
  split; [vm_compute; reflexivity|]. split; [reflexivity|].
  split; [vm_compute; reflexivity|]. split; [vm_compute; reflexivity|].
  split; [left; reflexivity|]. split; [vm_compute; reflexivity|].
  split; [reflexivity|]. split; [reflexivity|].
  split; [vm_compute; reflexivity|].
  vm_compute. intros H. discriminate H.
Qed.

(** C10.  An operation without points takes no part in conflict detection:
    submitted, it is reported without conflict and stored as it is, so with
    its timestamp; already in the document, it is never among the conflicts
    of a candidate. *)
Theorem C10_empty_points_never_conflict σ acts action candidate :
  store_actions σ = Some acts ->
  points action = [] ->
  (exists res σ',
      addAction action σ = Some (res, σ')
      /\ conflict res = Some false
      /\ resolvedAction res = None
      /\ store_actions σ' = Some (sort byTimestamp (acts ++ [action]))
      /\ In action (sort byTimestamp (acts ++ [action])))
  /\ Forall (fun e => points e <> []) (findConflicts acts candidate).
Proof.
  intros Hst Hempty. split.
  - destruct (addAction_store σ acts action Hst) as (σ' & Hrun & Hst' & _).
    assert (findConflicts acts action = []) as Hnone.
    { rewrite findConflicts_filter. apply filter_all_false. intros e _.
      unfold conflictsWith. rewrite hasSpatialConflict_empty_l by done.
      by destruct (_ <? _). }
    unfold result_of, stored_of in *. rewrite Hnone in *. simpl in *.
    eexists _, σ'. split; [exact Hrun|]. repeat split; try done.
    apply In_sort, in_or_app. right. by left.
  - apply Forall_forall. intros e He Hpts. apply list_elem_of_In in He.
    apply In_findConflicts in He as (_ & _ & Hsp).
    by rewrite hasSpatialConflict_empty_r in Hsp.
Qed.

Lemma C10_witness :
  (exists res σ',
      addAction clear_1000 (store_with [draw_900]) = Some (res, σ')
      /\ conflict res = Some false
      /\ resolvedAction res = None
      /\ store_actions σ' = Some (sort byTimestamp ([draw_900] ++ [clear_1000]))
      /\ In clear_1000 (sort byTimestamp ([draw_900] ++ [clear_1000])))
  /\ Forall (fun e => points e <> []) (findConflicts [draw_900] draw_900).
Proof.
  apply (C10_empty_points_never_conflict
           (store_with [draw_900]) [draw_900] clear_1000 draw_900);
    reflexivity.
Defined.

(** What [optimizeActions] computes.  It returns and leaves in the
    document the last [Clear] of the list followed by the other operations
    strictly later than it, or the list as it was when it holds no
    [Clear]; a second call leaves the same list.  In an ascending list the
    last [Clear] is a [Clear] of greatest timestamp.  The list
    [draw @ 1000; clear @ 2000; draw @ 3000] becomes
    [clear @ 2000; draw @ 3000]. *)
Lemma optimizeActions_keeps_last_clear σ acts :
  store_actions σ = Some acts ->
  (exists σ' σ'',
      optimizeActions σ = Some (tt, σ')
      /\ store_actions σ' = Some (spec_optimize acts)
      /\ optimizeActions σ' = Some (tt, σ'')
      /\ store_actions σ'' = Some (spec_optimize acts))
  /\ (forall c, latestClear acts = Some c ->
        In c acts /\ type c = clear
        /\ (sorted_asc acts ->
            forall c', In c' acts -> type c' = clear ->
                       timestamp c' <= timestamp c))
  /\ (latestClear acts = None <-> forall a, In a acts -> type a <> clear)
  /\ spec_optimize [draw_1000; clear_2000; draw_3000] = [clear_2000; draw_3000].
Proof.
  intros Hst. split; [|split; [|split]].
  - destruct (optimizeActions_store σ acts Hst) as (σ' & Hrun & Hst' & _).
    destruct (optimizeActions_store σ' _ Hst') as (σ'' & Hrun' & Hst'' & _).
    rewrite !optimized_of_spec in *. rewrite spec_optimize_idem in Hst''.
    by exists σ', σ''.
  - intros c Hc. destruct (latestClear_In acts c Hc) as [Hin Hty].
    split; [done|]. split; [done|]. intros Hs c' Hin' Hty'.
    by apply (latestClear_greatest acts).
  - split; [apply latestClear_None|]. intros Hnone.
    destruct (latestClear acts) as [c|] eqn:Hc; [|done].
    apply latestClear_In in Hc as [Hin Hty]. by destruct (Hnone c Hin).
  - reflexivity.
Qed.

Lemma optimizeActions_keeps_last_clear_example :
  exists σ' σ'',
    optimizeActions (store_with [draw_1000; clear_2000; draw_3000])
    = Some (tt, σ')
    /\ store_actions σ' = Some [clear_2000; draw_3000]
    /\ optimizeActions σ' = Some (tt, σ'')
    /\ store_actions σ'' = Some [clear_2000; draw_3000].
Proof.
  apply (optimizeActions_keeps_last_clear
           (store_with [draw_1000; clear_2000; draw_3000])
           [draw_1000; clear_2000; draw_3000]).
  reflexivity.
Defined.

(** On an ascending list the last [Clear] is the latest one. *)
Lemma later_clear_sorted acts best :
  sorted_asc acts ->
  (forall c a, best = Some c -> In a acts -> timestamp c <= timestamp a) ->
  fold_left later_clear acts best
  = match last (List.filter isClear acts) with
    | Some c => Some c
    | None => best
    end.
Proof.
  unfold sorted_asc. revert best.
  induction acts as [|a acts IH]; intros best Hs Hbest; [done|].
  apply StronglySorted_cons in Hs as [Ha Hs]. simpl.
  assert (forall c b, later_clear best a = Some c -> In b acts ->
                      timestamp c <= timestamp b) as Hnext.
  { intros c b Hc Hb. unfold later_clear in Hc.
    assert (timestamp a <= timestamp b) as Hab.
    { rewrite Forall_forall in Ha. apply (Ha b). by apply list_elem_of_In. }
    destruct (isClear a).
    - destruct best as [c0|]; [|injection Hc as <-; lia].
      destruct (timestamp c0 <=? timestamp a); injection Hc as <-; [lia|].
      apply (Hbest c0 b); [done|by right].
    - apply (Hbest c b); [done|by right]. }
  rewrite (IH _ Hs Hnext). unfold later_clear.
  destruct (isClear a) eqn:Hca.
  - destruct (List.filter isClear acts) as [|c' cs] eqn:Hcs.
    + simpl. destruct best as [c0|]; [|done].
      destruct (Z.leb_spec (timestamp c0) (timestamp a)) as [_|Hgt]; [done|].
      specialize (Hbest c0 a eq_refl (or_introl eq_refl)). lia.
    + rewrite last_cons_cons.
      destruct (last (c' :: cs)) eqn:Hl; [done|].
      by apply last_None in Hl.
  - done.
Qed.

Lemma latestClear_by_time_sorted acts :
  sorted_asc acts -> latestClear_by_time acts = latestClear acts.
Proof.
  intros Hs. unfold latestClear_by_time, latestClear.
  rewrite later_clear_sorted; [|done|done].
  by destruct (last (List.filter isClear acts)).
Qed.

(** C4 (the code departs from it).  The claim: the latest [Clear] is kept,
    with the other operations strictly later than it.  [optimizeActions]
    takes the last [Clear] of the array, which is the latest one only when
    the array is sorted.  On a manager built on the list
    [clear @ 2000; draw @ 1500; clear @ 1000; draw @ 2500] it keeps the
    clear at 1000 with the draws at 1500 and 2500, and drops the latest
    [Clear], where the claim asks for [clear @ 2000; draw @ 2500]. *)
Theorem C4_last_clear_kept_instead_of_latest :
  latestClear_by_time
    [clear_late_2000; draw_mid_1500; clear_early_1000; draw_end_2500]
  = Some clear_late_2000
  /\ optimize_by_time
       [clear_late_2000; draw_mid_1500; clear_early_1000; draw_end_2500]
     = [clear_late_2000; draw_end_2500]
  /\ exists σ',
       optimizeActions
         (store_with
            [clear_late_2000; draw_mid_1500; clear_early_1000; draw_end_2500])
       = Some (tt, σ')
       /\ store_actions σ'
          = Some [clear_early_1000; draw_mid_1500; draw_end_2500].
Proof.
  split; [reflexivity|]. split; [reflexivity|].
  eexists. split; vm_compute; reflexivity.
Qed.

(** C5.  [mergeActions incoming] returns and leaves in the document the
    current operations followed by the incoming ones, with only the first
    operation of each id kept, sorted ascending by timestamp.  Each
    operation left is one of the given ones, unaltered (no conflict
    resolution), and it is the first of its id, so a copy already in the
    document wins.  Merging [a; a] into an empty document leaves [a]. *)
Theorem C5_mergeActions_dedup_sorted σ acts incoming now :
  store_actions σ = Some acts ->
  (exists σ' merged,
      mergeActions incoming now σ = Some (tt, σ')
      /\ store_actions σ' = Some merged
      /\ merged = spec_merge acts incoming
      /\ Permutation merged (keep_first_by_id [] (acts ++ incoming))
      /\ sorted_asc merged
      /\ List.NoDup (map id merged)
      /\ (forall a, In a merged <->
            exists l1 l2, acts ++ incoming = l1 ++ a :: l2
                          /\ ~ In (id a) (map id l1)))
  /\ (forall a, spec_merge [] [a; a] = [a]).
Proof.
  intros Hst. split.
  - destruct (mergeActions_store σ acts incoming now Hst) as (σ' & Hrun & Hst' & _).
    exists σ', (spec_merge acts incoming). rewrite merged_of_spec in Hst'.
    split; [done|]. split; [done|]. split; [done|].
    unfold spec_merge. split; [apply sort_perm|].
    split; [apply sort_sorted_asc|]. split.
    + eapply Permutation_NoDup.
      * apply Permutation_map. symmetry. apply sort_perm.
      * apply keep_first_NoDup.
    + intros a. rewrite In_sort, In_keep_first. split.
      * intros (l1 & l2 & Heq & _ & Hl1). eauto.
      * intros (l1 & l2 & Heq & Hl1). exists l1, l2.
        split; [done|]. split; [simpl; tauto|done].
  - intros a. unfold spec_merge. simpl. by rewrite String.eqb_refl.
Qed.

Lemma C5_witness :
  exists σ' merged,
    mergeActions [draw_1000; draw_1000] 7000 (store_with []) = Some (tt, σ')
    /\ store_actions σ' = Some merged
    /\ merged = [draw_1000].
Proof.
  destruct (C5_mergeActions_dedup_sorted (store_with []) []
              [draw_1000; draw_1000] 7000 eq_refl)
    as [(σ' & merged & Hrun & Hst & Heq & _) _].
  exists σ', merged. split; [exact Hrun|]. split; [exact Hst|]. exact Heq.
Defined.

(** C6, as amended.  After [addAction] returns, [lastModified] is the
    timestamp of the operation it has just stored, whatever was appended
    before; after [mergeActions] it is the clock reading of the call;
    [optimizeActions] leaves it as it was. *)
Theorem C6_lastModified_after_call σ acts :
  store_actions σ = Some acts ->
  (forall action, exists res σ',
      addAction action σ = Some (res, σ')
      /\ store_lastModified σ' = Some (timestamp (stored_action action res)))
  /\ (forall incoming now, exists σ',
        mergeActions incoming now σ = Some (tt, σ')
        /\ store_lastModified σ' = Some now)
  /\ (exists σ',
        optimizeActions σ = Some (tt, σ')
        /\ store_lastModified σ' = store_lastModified σ).
Proof.
  intros Hst. split; [|split].
  - intros action.
    destruct (addAction_store σ acts action Hst) as (σ' & Hrun & _ & Hlm).
    exists (result_of acts action), σ'. by rewrite stored_action_result.
  - intros incoming now.
    destruct (mergeActions_store σ acts incoming now Hst) as (σ' & Hrun & _ & Hlm).
    by exists σ'.
  - destruct (optimizeActions_store σ acts Hst) as (σ' & Hrun & _ & Hlm).
    by exists σ'.
Qed.

Lemma C6_witness :
  exists res σ',
    addAction draw_far_500 (store_with [draw_1000]) = Some (res, σ')
    /\ store_lastModified σ' = Some (timestamp (stored_action draw_far_500 res)).
Proof.
  apply (C6_lastModified_after_call (store_with [draw_1000]) [draw_1000]).
  reflexivity.
Defined.

(** C6 as stated fails: after a draw at 1000 and then a distant draw at
    500, both appended by [addAction], [lastModified] is 500. *)
Lemma C6_counterexample :
  exists σ,
    run [AddAction draw_1000; AddAction draw_far_500] (store_with [])
    = Some (tt, σ)
    /\ store_actions σ = Some [draw_far_500; draw_1000]
    /\ store_lastModified σ = Some 500
    /\ ~ (timestamp draw_1000 <= 500).
Proof.
  eexists. split; [vm_compute; reflexivity|].
  split; [vm_compute; reflexivity|]. split; [vm_compute; reflexivity|].
  vm_compute. intros H. by apply H.
Qed.

(** ** Snapshots and copies *)

(** [restoreFromSnapshot] installs a copy of the snapshot's state object:
    the store then reads the very array of the snapshot. *)
Lemma restoreFromSnapshot_run σ snapshot ws :
  objects σ !! state snapshot = Some ws ->
  restoreFromSnapshot snapshot σ
  = Some (tt,
      {| arrays := arrays σ;
         objects := <[fresh (dom (objects σ)) := ws]> (objects σ);
         whiteboardState := fresh (dom (objects σ)) |}).
Proof.
  intros Hobj.
  unfold restoreFromSnapshot, mbind, M_bind, read_object, new_object, set_this.
  by heap_steps.
Qed.

Lemma fresh_object_free σ : objects σ !! fresh (dom (objects σ)) = None.
Proof. apply not_elem_of_dom, is_fresh. Qed.

Lemma fresh_array_free σ : arrays σ !! fresh (dom (arrays σ)) = None.
Proof. apply not_elem_of_dom, is_fresh. Qed.


(** [mergeActions] and [optimizeActions] write a new array and leave the
    arrays that exist alone: the sequence seen through any other state
    object stays as it was. *)
Lemma optimizeActions_frame σ acts r racts :
  store_actions σ = Some acts ->
  r <> whiteboardState σ -> actions_at σ r = Some racts ->
  exists σ', optimizeActions σ = Some (tt, σ') /\ actions_at σ' r = Some racts.
Proof.
  intros (ws & Hobj & Harr)%store_actions_inv Hr Hat. eexists.
  split; [by eapply optimizeActions_run|].
  unfold actions_at in *. simpl. rewrite lookup_insert_ne by done.
  destruct (objects σ !! r) as [wr|]; [|done].
  rewrite lookup_insert_ne; [done|]. intros Heq.
  pose proof (fresh_array_free σ) as Hfree. congruence.
Qed.

Lemma mergeActions_frame σ acts incoming now r racts :
  store_actions σ = Some acts ->
  r <> whiteboardState σ -> actions_at σ r = Some racts ->
  exists σ',
    mergeActions incoming now σ = Some (tt, σ') /\ actions_at σ' r = Some racts.
Proof.
  intros (ws & Hobj & Harr)%store_actions_inv Hr Hat. eexists.
  split; [by eapply mergeActions_run|].
  unfold actions_at in *. simpl. rewrite lookup_insert_ne by done.
  destruct (objects σ !! r) as [wr|]; [|done].
  rewrite lookup_insert_ne; [done|]. intros Heq.
  pose proof (fresh_array_free σ) as Hfree. congruence.
Qed.




(** C8, as amended.  [addAction] returns for every operation, with
    [success = true] and a boolean [conflict].  [resolvedAction] is present
    exactly when [conflict] is [true], and is then the resolved operation,
    which is the one stored; when [conflict] is [false] there is no
    [resolvedAction] and the operation is stored as submitted.  The
    document afterwards is the sorted list of what it held and the
    operation stored. *)
Theorem C8_addAction_result σ acts action :
  store_actions σ = Some acts ->
  exists res σ' flag acts',
    addAction action σ = Some (res, σ')
    /\ success res = true
    /\ conflict res = Some flag
    /\ flag = negb (length (findConflicts acts action) =? 0)%nat
    /\ resolvedAction res
       = (if flag then Some (resolveConflicts action (findConflicts acts action))
          else None)
    /\ store_actions σ' = Some acts'
    /\ acts'
       = sort byTimestamp
           (acts ++ [if flag
                     then resolveConflicts action (findConflicts acts action)
                     else action])
    /\ In (if flag then resolveConflicts action (findConflicts acts action)
           else action) acts'
    /\ (forall a, In a acts -> In a acts').
Proof.
  intros Hst.
  destruct (addAction_store σ acts action Hst) as (σ' & Hrun & Hst' & _).
  exists (result_of acts action), σ',
    (negb (length (findConflicts acts action) =? 0)%nat),
    (sort byTimestamp (acts ++ [stored_of acts action])).
  split; [done|]. unfold result_of, stored_of in *.
  destruct (findConflicts acts action) as [|c cs] eqn:Hcs; simpl in *.
  - split; [done|]. split; [done|]. split; [done|]. split; [done|].
    split; [done|]. split; [done|].
    split; [apply In_sort, in_or_app; right; by left|].
    intros a Ha. apply In_sort, in_or_app. by left.
  - split; [done|]. split; [done|]. split; [done|]. split; [done|].
    split; [done|]. split; [done|].
    split; [apply In_sort, in_or_app; right; by left|].
    intros a Ha. apply In_sort, in_or_app. by left.
Qed.

Lemma C8_witness :
  exists res σ' flag acts',
    addAction draw_3000 (store_with [draw_1000]) = Some (res, σ')
    /\ success res = true
    /\ conflict res = Some flag
    /\ flag = negb (length (findConflicts [draw_1000] draw_3000) =? 0)%nat
    /\ resolvedAction res
       = (if flag
          then Some (resolveConflicts draw_3000 (findConflicts [draw_1000] draw_3000))
          else None)
    /\ store_actions σ' = Some acts'
    /\ acts'
       = sort byTimestamp
           ([draw_1000]
              ++ [if flag
                  then resolveConflicts draw_3000
                         (findConflicts [draw_1000] draw_3000)
                  else draw_3000])
    /\ In (if flag
           then resolveConflicts draw_3000 (findConflicts [draw_1000] draw_3000)
           else draw_3000) acts'
    /\ (forall a, In a [draw_1000] -> In a acts').
Proof.
  apply (C8_addAction_result (store_with [draw_1000]) [draw_1000] draw_3000).
  reflexivity.
Defined.

(** C8 as stated fails: on an empty document [addAction] finds no conflict
    and returns no [resolvedAction]. *)
Lemma C8_counterexample :
  exists σ',
    addAction draw_1000 (store_with [])
    = Some ({| success := true; conflict := Some false;
               resolvedAction := None |}, σ').
Proof. eexists. vm_compute. reflexivity. Qed.

(** C9 (the code departs from it).  [getState] and [restoreFromSnapshot]
    copy the state object, not its array: the copy and the store hold the
    same array, into which [addAction] pushes.  The sequence of a copy taken
    from an empty document holds the operation added afterwards, and the
    sequence of a restored snapshot grows with the store. *)
Theorem C9_addAction_reaches_the_copy :
  (exists copy σ1 res σ2,
      getState (store_with []) = Some (copy, σ1)
      /\ actions_at σ1 copy = Some []
      /\ addAction draw_1000 σ1 = Some (res, σ2)
      /\ actions_at σ2 copy = Some [draw_1000])
  /\ (exists σ1 res σ2,
        restoreFromSnapshot {| state := 2%positive; snap_timestamp := 0 |}
          two_documents = Some (tt, σ1)
        /\ actions_at σ1 2%positive = Some [draw_x_1000; draw_far_500]
        /\ addAction draw_3000 σ1 = Some (res, σ2)
        /\ actions_at σ2 2%positive
           = Some [draw_far_500; draw_x_1000; draw_3000]).
Proof.
  split.
  - eexists _, _, _, _. split; [vm_compute; reflexivity|].
    split; [vm_compute; reflexivity|]. split; [vm_compute; reflexivity|].
    vm_compute. reflexivity.
  - eexists _, _, _. split; [vm_compute; reflexivity|].
    split; [vm_compute; reflexivity|]. split; [vm_compute; reflexivity|].
    vm_compute. reflexivity.
Qed.

(** * Further properties of the code *)

(** ** [sanitizeAction] *)







(** On an operation whose numbers are integers. *)
Lemma sanitizeAction_typed a :
  sanitizeAction (action_to_js a) = Some (action_to_js (sanitized a)).
Proof.
  destruct a as [i k ps c w t u]. unfold sanitizeAction, action_to_js.
  cbn -[clamp mapM sanitize_point point_to_js].
  assert (mapM sanitize_point (map point_to_js ps)
          = Some (map point_to_js
                    (map (fun point =>
                            {| x := Z.max 0 (Z.min 10000 (x point));
                               y := Z.max 0 (Z.min 10000 (y point)) |}) ps)))
    as ->.
  { apply mapM_Some. induction ps as [|[px py] ps IH]; constructor; done. }
  reflexivity.
Qed.

Lemma point_to_js_inj p q : point_to_js p = point_to_js q -> p = q.
Proof. destruct p, q. by intros [= -> ->]. Qed.

Lemma map_point_to_js_inj ps qs :
  map point_to_js ps = map point_to_js qs -> ps = qs.
Proof.
  revert qs. induction ps as [|p ps IH]; intros [|q qs]; cbn [map]; try done.
  intros H. injection H as Hx Hy Hps.
  f_equal; [|by apply IH]. destruct p, q. simpl in *. congruence.
Qed.

Lemma type_to_js_inj k k' : type_to_js k = type_to_js k' -> k = k'.
Proof. by destruct k, k'. Qed.

Lemma action_to_js_inj a b : action_to_js a = action_to_js b -> a = b.
Proof.
  destruct a, b. unfold action_to_js. simpl.
  intros [= -> Hk Hps -> -> -> ->].
  apply type_to_js_inj in Hk as ->. by apply map_point_to_js_inj in Hps as ->.
Qed.

Lemma sanitized_bounds a : in_bounds (sanitized a).
Proof.
  split; [|simpl; lia].
  apply Forall_forall. intros p Hp. apply list_elem_of_In in Hp.
  simpl in Hp. apply in_map_iff in Hp as (q & <- & _).
  unfold point_in_bounds. simpl. lia.
Qed.

Lemma sanitized_fixed a : in_bounds a -> sanitized a = a.
Proof.
  destruct a as [i k ps c w t u]. intros [Hps Hw].
  unfold sanitized. simpl in *. f_equal; [|lia].
  induction ps as [|[px py] ps IH]; [done|].
  apply Forall_cons in Hps as [[Hx Hy] Hps]. simpl in *.
  rewrite IH by done. f_equal. f_equal; lia.
Qed.


(** The sample with [NaN] is accepted by [validateAction]. *)
Lemma nan_stroke_validated : validateAction nan_stroke = Some (JsBool true).
Proof. reflexivity. Qed.



(** X2.  On an operation whose coordinates and stroke width are integers,
    [sanitizeAction] returns an operation of integers that is within the
    bounds; the result is the operation itself exactly when the operation
    is within the bounds; and sanitizing the result returns the result. *)
Theorem X2_sanitizeAction_fixed_points a :
  exists a',
    sanitizeAction (action_to_js a) = Some (action_to_js a')
    /\ in_bounds a'
    /\ (a' = a <-> in_bounds a)
    /\ sanitizeAction (action_to_js a') = Some (action_to_js a').
Proof.
  exists (sanitized a). split; [apply sanitizeAction_typed|].
  split; [apply sanitized_bounds|]. split.
  - split; [intros <-; apply sanitized_bounds|apply sanitized_fixed].
  - rewrite sanitizeAction_typed. do 2 f_equal.
    apply sanitized_fixed, sanitized_bounds.
Qed.

(** ** [addAction], [findConflicts], [hasSpatialConflict] *)

Lemma set_timestamp_same a : set_timestamp a (timestamp a) = a.
Proof. by destruct a. Qed.

(** What is stored is the submitted operation, except for its timestamp,
    which is never earlier. *)
Lemma stored_of_shape acts action :
  stored_of acts action
  = set_timestamp action (timestamp (stored_of acts action))
  /\ timestamp action <= timestamp (stored_of acts action).
Proof.
  rewrite stored_of_timestamp. unfold stored_of.
  destruct (findConflicts acts action) as [|c cs] eqn:Hcs.
  - simpl. by rewrite set_timestamp_same.
  - change (0 <? length (c :: cs))%nat with true. cbv iota.
    rewrite resolveConflicts_last.
    destruct (last (c :: cs)) as [c'|] eqn:Hlast;
      [|by apply last_None in Hlast].
    split; [reflexivity|lia].
Qed.

(** X3.  [addAction] returns and adds exactly one operation to the
    document: the operations that were there are all kept, unaltered, and
    the one added is the submitted operation with, at most, a later
    timestamp. *)
Theorem X3_addAction_adds_one_operation σ acts action :
  store_actions σ = Some acts ->
  exists res σ' acts',
    addAction action σ = Some (res, σ')
    /\ store_actions σ' = Some acts'
    /\ Permutation acts' (acts ++ [stored_action action res])
    /\ stored_action action res
       = set_timestamp action (timestamp (stored_action action res))
    /\ timestamp action <= timestamp (stored_action action res).
Proof.
  intros Hst.
  destruct (addAction_store σ acts action Hst) as (σ' & Hrun & Hst' & _).
  eexists (result_of acts action), σ', _. split; [exact Hrun|].
  split; [exact Hst'|]. rewrite stored_action_result.
  split; [apply sort_perm|]. apply stored_of_shape.
Qed.

Lemma X3_witness :
  exists res σ' acts',
    addAction erase_900 (store_with [draw_1000]) = Some (res, σ')
    /\ store_actions σ' = Some acts'
    /\ Permutation acts' ([draw_1000] ++ [stored_action erase_900 res])
    /\ stored_action erase_900 res
       = set_timestamp erase_900 (timestamp (stored_action erase_900 res))
    /\ timestamp erase_900 <= timestamp (stored_action erase_900 res).
Proof.
  apply (X3_addAction_adds_one_operation (store_with [draw_1000]) [draw_1000]).
  reflexivity.
Defined.



(** X5.  Conflict detection does not depend on which of the two
    operations is the new one: [hasSpatialConflict] and the test of
    [findConflicts] give the same answer with the operations swapped. *)
Theorem X5_conflict_detection_symmetric a b :
  hasSpatialConflict a b = hasSpatialConflict b a
  /\ conflictsWith a b = conflictsWith b a.
Proof.
  assert (forall a b, hasSpatialConflict a b = true ->
                      hasSpatialConflict b a = true) as Hsym.
  { intros a' b' (p & q & Hp & Hq & Hd)%hasSpatialConflict_iff.
    apply hasSpatialConflict_iff. exists q, p. split; [done|].
    split; [done|].
    replace ((x q - x p) ^ 2) with ((x p - x q) ^ 2) by ring.
    by replace ((y q - y p) ^ 2) with ((y p - y q) ^ 2) by ring. }
  assert (hasSpatialConflict a b = hasSpatialConflict b a) as Heq.
  { destruct (hasSpatialConflict a b) eqn:Hab.
    - symmetry. by apply Hsym.
    - destruct (hasSpatialConflict b a) eqn:Hba; [|done].
      apply Hsym in Hba. congruence. }
  split; [exact Heq|]. unfold conflictsWith.
  replace (Z.abs (timestamp b - timestamp a))
    with (Z.abs (timestamp a - timestamp b)) by lia.
  by rewrite Heq.
Qed.



(** ** [mergeActions], [getActionsSince], [optimizeActions] *)

(** [keep_first_by_id] looks at its first argument as a set. *)
Lemma keep_first_ext seen seen' l :
  (forall s, In s seen <-> In s seen') ->
  keep_first_by_id seen l = keep_first_by_id seen' l.
Proof.
  revert seen seen'. induction l as [|a l IH]; intros seen seen' Hs; [done|].
  simpl.
  assert (existsb (String.eqb (id a)) seen
          = existsb (String.eqb (id a)) seen') as ->.
  { apply eq_true_iff_eq. rewrite !existsb_id_eqb. apply Hs. }
  destruct (existsb (String.eqb (id a)) seen'); [by apply IH|].
  f_equal. apply IH. intros s. simpl. rewrite Hs. tauto.
Qed.

Lemma keep_first_app seen l1 l2 :
  keep_first_by_id seen (l1 ++ l2)
  = keep_first_by_id seen l1 ++ keep_first_by_id (map id l1 ++ seen) l2.
Proof.
  revert seen. induction l1 as [|a l1 IH]; intros seen; [done|]. simpl.
  destruct (existsb (String.eqb (id a)) seen) eqn:Hex.
  - rewrite IH. f_equal. apply keep_first_ext. intros s.
    apply existsb_id_eqb in Hex. simpl. rewrite !in_app_iff.
    intuition (subst; auto).
  - simpl. rewrite IH. do 2 f_equal. apply keep_first_ext. intros s.
    simpl. rewrite !in_app_iff. simpl. tauto.
Qed.

Lemma keep_first_all_seen seen l :
  (forall a, In a l -> In (id a) seen) -> keep_first_by_id seen l = [].
Proof.
  induction l as [|a l IH]; intros Hall; [done|]. simpl.
  assert (existsb (String.eqb (id a)) seen = true) as ->.
  { apply existsb_id_eqb, Hall. by left. }
  apply IH. intros b Hb. apply Hall. by right.
Qed.

Lemma keep_first_NoDup_id seen l :
  List.NoDup (map id l) -> (forall a, In a l -> ~ In (id a) seen) ->
  keep_first_by_id seen l = l.
Proof.
  revert seen. induction l as [|a l IH]; intros seen Hnd Hseen; [done|].
  simpl. apply NoDup_cons_iff in Hnd as [Ha Hnd].
  assert (existsb (String.eqb (id a)) seen = false) as ->.
  { apply not_true_is_false. intros Hex%existsb_id_eqb.
    apply (Hseen a); [by left|done]. }
  f_equal. apply IH; [done|]. intros b Hb [Heq|Hin].
  - apply Ha. rewrite Heq. by apply in_map.
  - apply (Hseen b); [by right|done].
Qed.

(** Every id outside [seen] survives the deduplication. *)
Lemma keep_first_ids seen l s :
  In s (map id (keep_first_by_id seen l))
  <-> In s (map id l) /\ ~ In s seen.
Proof.
  revert seen. induction l as [|a l IH]; intros seen; simpl; [tauto|].
  destruct (existsb (String.eqb (id a)) seen) eqn:Hex.
  - apply existsb_id_eqb in Hex. rewrite IH. split; [tauto|].
    intros [[<-|?] ?]; tauto.
  - assert (~ In (id a) seen) as Ha.
    { intros Hin%existsb_id_eqb. congruence. }
    simpl. rewrite IH. simpl. split.
    + intros [<-|(? & ?)]; tauto.
    + intros [[<-|?] ?]; [by left|].
      destruct (String.eqb_spec (id a) s) as [->|Hne]; [by left|]. right.
      tauto.
Qed.

Lemma spec_merge_idem acts incoming :
  spec_merge (spec_merge acts incoming) incoming = spec_merge acts incoming.
Proof.
  unfold spec_merge at 1. set (m := spec_merge acts incoming).
  assert (Permutation m (keep_first_by_id [] (acts ++ incoming))) as Hperm
    by apply sort_perm.
  assert (List.NoDup (map id m)) as Hnd.
  { eapply Permutation_NoDup; [apply Permutation_map; symmetry; exact Hperm|].
    apply keep_first_NoDup. }
  rewrite keep_first_app, keep_first_NoDup_id; [|done|by intros ? _ []].
  rewrite keep_first_all_seen, app_nil_r.
  - apply sort_sorted_id, sort_sorted_asc.
  - intros a Ha. rewrite app_nil_r.
    apply (Permutation_in _ (Permutation_map id (Permutation_sym Hperm))).
    apply keep_first_ids. split; [|by intros []].
    apply in_map, in_or_app. by right.
Qed.

(** X7.  Merging the same operations a second time changes nothing in the
    operation list. *)
Theorem X7_mergeActions_idempotent σ acts incoming now now' :
  store_actions σ = Some acts ->
  exists σ1 σ2 merged,
    mergeActions incoming now σ = Some (tt, σ1)
    /\ store_actions σ1 = Some merged
    /\ mergeActions incoming now' σ1 = Some (tt, σ2)
    /\ store_actions σ2 = Some merged.
Proof.
  intros Hst.
  destruct (mergeActions_store σ acts incoming now Hst) as (σ1 & Hrun1 & Hst1 & _).
  destruct (mergeActions_store σ1 _ incoming now' Hst1) as (σ2 & Hrun2 & Hst2 & _).
  exists σ1, σ2, (merged_of acts incoming). split; [done|]. split; [done|].
  split; [done|]. rewrite Hst2, !merged_of_spec. by rewrite spec_merge_idem.
Qed.

Lemma X7_witness :
  exists σ1 σ2 merged,
    mergeActions [draw_far_500; draw_1000] 7000 (store_with [draw_1000])
    = Some (tt, σ1)
    /\ store_actions σ1 = Some merged
    /\ mergeActions [draw_far_500; draw_1000] 8000 σ1 = Some (tt, σ2)
    /\ store_actions σ2 = Some merged.
Proof.
  apply (X7_mergeActions_idempotent (store_with [draw_1000]) [draw_1000]).
  reflexivity.
Defined.

(** X8.  [mergeActions] loses no id and invents none: the ids of the
    operations it leaves are those of the current and of the incoming
    operations, and [mergeActions] with nothing incoming keeps one
    operation of every id the document had. *)
Theorem X8_mergeActions_keeps_every_id σ acts incoming now :
  store_actions σ = Some acts ->
  exists σ' merged,
    mergeActions incoming now σ = Some (tt, σ')
    /\ store_actions σ' = Some merged
    /\ (forall s, In s (map id merged) <-> In s (map id (acts ++ incoming)))
    /\ (length merged <= length acts + length incoming)%nat.
Proof.
  intros Hst.
  destruct (mergeActions_store σ acts incoming now Hst) as (σ' & Hrun & Hst' & _).
  exists σ', (merged_of acts incoming). split; [done|]. split; [done|].
  rewrite merged_of_spec. unfold spec_merge. split.
  - intros s.
    assert (Permutation (map id (sort byTimestamp
                                   (keep_first_by_id [] (acts ++ incoming))))
              (map id (keep_first_by_id [] (acts ++ incoming)))) as Hperm
      by apply Permutation_map, sort_perm.
    split.
    + intros Hin%(Permutation_in _ Hperm). by apply keep_first_ids in Hin as [? _].
    + intros Hin. apply (Permutation_in _ (Permutation_sym Hperm)).
      apply keep_first_ids. split; [done|by intros []].
  - rewrite (Permutation_length (sort_perm _ _)), <- length_app.
    generalize (acts ++ incoming). generalize (@nil string).
    intros seen l. revert seen. induction l as [|a l IH]; intros seen; [done|].
    simpl. destruct (existsb _ seen); simpl; [specialize (IH seen)|specialize (IH (id a :: seen))]; lia.
Qed.

Lemma X8_witness :
  exists σ' merged,
    mergeActions [draw_far_500; draw_1000] 7000 (store_with [draw_1000])
    = Some (tt, σ')
    /\ store_actions σ' = Some merged
    /\ (forall s, In s (map id merged)
                  <-> In s (map id ([draw_1000] ++ [draw_far_500; draw_1000])))
    /\ (length merged <= length [draw_1000] + length [draw_far_500; draw_1000])%nat.
Proof.
  apply (X8_mergeActions_keeps_every_id (store_with [draw_1000]) [draw_1000]).
  reflexivity.
Defined.

Lemma getActionsSince_run σ acts t :
  store_actions σ = Some acts ->
  getActionsSince t σ
  = Some (List.filter (fun a => t <? timestamp a) acts, σ).
Proof.
  intros (ws & Hobj & Harr)%store_actions_inv.
  unfold getActionsSince, mbind, M_bind, this_ref, read_object, read_array.
  by heap_steps.
Qed.

(** In an ascending list the operations later than [t] form the end of the
    list. *)
Lemma sorted_later_suffix t acts :
  sorted_asc acts ->
  exists older,
    acts = older ++ List.filter (fun a => t <? timestamp a) acts
    /\ Forall (fun a => timestamp a <= t) older.
Proof.
  unfold sorted_asc. induction acts as [|a l IH]; intros Hs.
  - by exists [].
  - apply StronglySorted_cons in Hs as [Ha Hl]. simpl.
    destruct (Z.ltb_spec t (timestamp a)) as [Hlt|Hle].
    + exists []. split; [|constructor]. simpl. f_equal. symmetry.
      apply filter_all. intros b Hb. apply Z.ltb_lt.
      rewrite Forall_forall in Ha. specialize (Ha b).
      unfold ts_le in Ha. apply list_elem_of_In in Hb. specialize (Ha Hb). lia.
    + destruct (IH Hl) as (older & Heq & Hold). exists (a :: older).
      split; [simpl; by f_equal|]. by constructor.
Qed.

(** X9.  [getActionsSince t] returns, in document order, exactly the
    operations whose timestamp is strictly greater than [t], and changes
    nothing; when the document is sorted they are its last operations, all
    the ones in front being at or before [t]. *)
Theorem X9_getActionsSince σ acts t :
  store_actions σ = Some acts ->
  exists later,
    getActionsSince t σ = Some (later, σ)
    /\ later = List.filter (fun a => t <? timestamp a) acts
    /\ (forall a, In a later <-> In a acts /\ t < timestamp a)
    /\ (sorted_asc acts ->
        exists older, acts = older ++ later
                      /\ Forall (fun a => timestamp a <= t) older).
Proof.
  intros Hst. eexists. split; [by apply getActionsSince_run|].
  split; [done|]. split.
  - intros a. rewrite filter_In, Z.ltb_lt. tauto.
  - apply sorted_later_suffix.
Qed.

Lemma X9_witness :
  exists later,
    getActionsSince 1000 (store_with [draw_1000; clear_2000; draw_3000])
    = Some (later, store_with [draw_1000; clear_2000; draw_3000])
    /\ later = [clear_2000; draw_3000]
    /\ exists older, [draw_1000; clear_2000; draw_3000] = older ++ later
                     /\ Forall (fun a => timestamp a <= 1000) older.
Proof.
  destruct (X9_getActionsSince
              (store_with [draw_1000; clear_2000; draw_3000])
              [draw_1000; clear_2000; draw_3000] 1000 eq_refl)
    as (later & Hrun & Heq & _ & Hsorted).
  exists later. split; [exact Hrun|]. split; [exact Heq|].
  apply Hsorted. repeat constructor; vm_compute; discriminate.
Defined.

Lemma filter_length_split {A} (f : A -> bool) l :
  (length (List.filter f l) + length (List.filter (fun a => negb (f a)) l)
   = length l)%nat.
Proof.
  induction l as [|a l IH]; [done|]. simpl.
  destruct (f a); simpl; lia.
Qed.

Lemma filter_length_le {A} (f g : A -> bool) l :
  (forall a, f a = true -> g a = true) ->
  (length (List.filter f l) <= length (List.filter g l))%nat.
Proof.
  intros Hfg. induction l as [|a l IH]; [done|]. simpl.
  destruct (f a) eqn:Hf.
  - rewrite (Hfg a Hf). simpl. lia.
  - destruct (g a); simpl; lia.
Qed.

(** X10.  [optimizeActions] never adds or alters an operation and never
    makes the list longer; after it at most one [Clear] is left, and it
    is the first operation. *)
Theorem X10_optimizeActions_only_removes σ acts :
  store_actions σ = Some acts ->
  exists σ' kept,
    optimizeActions σ = Some (tt, σ')
    /\ store_actions σ' = Some kept
    /\ (forall a, In a kept -> In a acts)
    /\ (length kept <= length acts)%nat
    /\ Forall (fun a => type a <> clear) (tail kept).
Proof.
  intros Hst.
  destruct (optimizeActions_store σ acts Hst) as (σ' & Hrun & Hst' & _).
  exists σ', (optimized_of acts). split; [done|]. split; [done|].
  rewrite optimized_of_spec. unfold spec_optimize.
  destruct (latestClear acts) as [c|] eqn:Hc.
  - pose proof (latestClear_In acts c Hc) as [Hin Hty].
    split; [|split].
    + intros a [<-|Ha]; [done|]. by apply filter_In in Ha as [? _].
    + simpl.
      pose proof (filter_length_split isClear acts) as Hsplit.
      assert (In c (List.filter isClear acts)) as Hc'.
      { apply filter_In. split; [done|]. by apply isClear_true. }
      assert (0 < length (List.filter isClear acts))%nat
        by (destruct (List.filter isClear acts); [done|simpl; lia]).
      pose proof (filter_length_le
                    (fun a => negb (isClear a) && (timestamp c <? timestamp a))%bool
                    (fun a => negb (isClear a)) acts) as Hle.
      assert (forall a, (negb (isClear a) && (timestamp c <? timestamp a))%bool = true
                        -> negb (isClear a) = true) as Himp
        by (intros a Ha; by apply andb_prop in Ha as [? _]).
      specialize (Hle Himp). lia.
    + simpl. apply Forall_forall. intros a Ha.
      apply list_elem_of_In, filter_In in Ha as [_ Ha].
      apply andb_prop in Ha as [Ha _]. intros Hty'%isClear_true.
      by rewrite Hty' in Ha.
  - split; [done|]. split; [done|].
    apply Forall_forall. intros a Ha. apply list_elem_of_In in Ha.
    apply (latestClear_None acts Hc). destruct acts; [done|]. by right.
Qed.

Lemma X10_witness :
  exists σ' kept,
    optimizeActions (store_with [draw_1000; clear_2000; draw_3000])
    = Some (tt, σ')
    /\ store_actions σ' = Some kept
    /\ (forall a, In a kept -> In a [draw_1000; clear_2000; draw_3000])
    /\ (length kept <= length [draw_1000; clear_2000; draw_3000])%nat
    /\ Forall (fun a => type a <> clear) (tail kept).
Proof.
  apply (X10_optimizeActions_only_removes
           (store_with [draw_1000; clear_2000; draw_3000])).
  reflexivity.
Defined.

(** ** Copies, snapshots and the roster *)

Lemma updateCollaborators_run σ ws cs :
  objects σ !! whiteboardState σ = Some ws ->
  updateCollaborators cs σ
  = Some (tt,
      {| arrays := arrays σ;
         objects := <[whiteboardState σ := with_collaborators ws cs]> (objects σ);
         whiteboardState := whiteboardState σ |}).
Proof.
  intros Hobj.
  unfold updateCollaborators, mbind, M_bind, this_ref, read_object, write_object.
  by heap_steps.
Qed.

Lemma createSnapshot_run σ ws now :
  objects σ !! whiteboardState σ = Some ws ->
  createSnapshot now σ
  = Some ({| state := fresh (dom (objects σ)); snap_timestamp := now |},
      {| arrays := arrays σ;
         objects := <[fresh (dom (objects σ)) := ws]> (objects σ);
         whiteboardState := whiteboardState σ |}).
Proof.
  intros Hobj.
  unfold createSnapshot, mbind, M_bind, this_ref, read_object, new_object.
  by heap_steps.
Qed.

(** A call returns only when the objects it reads are in place. *)
Lemma invoke_store_inv m σ σ' :
  invoke m σ = Some (tt, σ') ->
  match m with
  | CallAddAction _ | CallGetActionsSince _ | CallOptimizeActions
  | CallMergeActions _ _ => exists acts, store_actions σ = Some acts
  | CallGetState | CallUpdateCollaborators _ | CallCreateSnapshot _ =>
      exists ws, objects σ !! whiteboardState σ = Some ws
  | CallRestoreFromSnapshot snapshot =>
      exists ws, objects σ !! state snapshot = Some ws
  end.
Proof.
  destruct m; simpl;
    unfold addAction, getState, updateCollaborators, getActionsSince,
      optimizeActions, mergeActions, createSnapshot, restoreFromSnapshot,
      store_actions, actions_at, mbind, M_bind, this_ref, read_object,
      read_array; simpl;
    try (destruct (objects σ !! whiteboardState σ) as [ws|]; [|done];
         try (destruct (arrays σ !! actions ws) as [acts|]; [|done]); eauto).
  destruct (objects σ !! state snapshot) as [ws|]; [|done]. eauto.
Qed.

(** What a call leaves alone: every state object other than the one of the
    store, which stays other than the one of the store; and, unless the
    call is [addAction], every array. *)
Lemma invoke_frame m σ σ' :
  invoke m σ = Some (tt, σ') ->
  (forall r ws, objects σ !! r = Some ws -> r <> whiteboardState σ ->
                objects σ' !! r = Some ws /\ r <> whiteboardState σ')
  /\ (pushes m = false ->
      forall l acts, arrays σ !! l = Some acts -> arrays σ' !! l = Some acts).
Proof.
  intros Hrun. pose proof (invoke_store_inv m σ σ' Hrun) as Hinv.
  assert (forall r ws, objects σ !! r = Some ws ->
                       r <> fresh (dom (objects σ))) as Hfresh_o.
  { intros r ws Hr Heq. pose proof (fresh_object_free σ). congruence. }
  assert (forall l acts, arrays σ !! l = Some acts ->
                         l <> fresh (dom (arrays σ))) as Hfresh_a.
  { intros l acts Hl Heq. pose proof (fresh_array_free σ). congruence. }
  destruct m; simpl in Hrun, Hinv |- *.
  - destruct Hinv as [acts (ws & Hobj & Harr)%store_actions_inv].
    unfold mbind, M_bind in Hrun.
    rewrite (addAction_run σ ws acts Hobj Harr) in Hrun.
    injection Hrun as <-. simpl. split; [|done].
    intros r wr Hr Hne. by rewrite lookup_insert_ne.
  - destruct Hinv as [ws Hobj]. unfold mbind, M_bind in Hrun.
    rewrite (getState_run σ ws Hobj) in Hrun. injection Hrun as <-. simpl.
    split; [|done]. intros r wr Hr Hne.
    rewrite lookup_insert_ne; [done|]. intros Heq. by apply (Hfresh_o r wr).
  - destruct Hinv as [ws Hobj].
    rewrite (updateCollaborators_run σ ws cs Hobj) in Hrun.
    injection Hrun as <-. simpl. split; [|done].
    intros r wr Hr Hne. by rewrite lookup_insert_ne.
  - destruct Hinv as [acts Hst]. unfold mbind, M_bind in Hrun.
    rewrite (getActionsSince_run σ acts t Hst) in Hrun.
    injection Hrun as <-. split; [|done]. by intros r wr Hr Hne.
  - destruct Hinv as [acts (ws & Hobj & Harr)%store_actions_inv].
    rewrite (optimizeActions_run σ ws acts Hobj Harr) in Hrun.
    injection Hrun as <-. simpl. split.
    + intros r wr Hr Hne. by rewrite lookup_insert_ne.
    + intros _ l la Hl. rewrite lookup_insert_ne; [done|].
      intros Heq. by apply (Hfresh_a l la).
  - destruct Hinv as [acts (ws & Hobj & Harr)%store_actions_inv].
    rewrite (mergeActions_run σ ws acts Hobj Harr) in Hrun.
    injection Hrun as <-. simpl. split.
    + intros r wr Hr Hne. by rewrite lookup_insert_ne.
    + intros _ l la Hl. rewrite lookup_insert_ne; [done|].
      intros Heq. by apply (Hfresh_a l la).
  - destruct Hinv as [ws Hobj]. unfold mbind, M_bind in Hrun.
    rewrite (createSnapshot_run σ ws now Hobj) in Hrun.
    injection Hrun as <-. simpl. split; [|done]. intros r wr Hr Hne.
    rewrite lookup_insert_ne; [done|]. intros Heq. by apply (Hfresh_o r wr).
  - destruct Hinv as [ws Hobj].
    rewrite (restoreFromSnapshot_run σ snapshot ws Hobj) in Hrun.
    injection Hrun as <-. simpl. split; [|done]. intros r wr Hr Hne.
    assert (r <> fresh (dom (objects σ))) by (by apply (Hfresh_o r wr)).
    by rewrite lookup_insert_ne.
Qed.

Lemma invoke_all_frame ms σ σ' :
  invoke_all ms σ = Some (tt, σ') ->
  (forall r ws, objects σ !! r = Some ws -> r <> whiteboardState σ ->
                objects σ' !! r = Some ws /\ r <> whiteboardState σ')
  /\ (forallb (fun m => negb (pushes m)) ms = true ->
      forall l acts, arrays σ !! l = Some acts -> arrays σ' !! l = Some acts).
Proof.
  revert σ. induction ms as [|m ms IH]; intros σ Hrun; simpl in Hrun.
  - injection Hrun as <-. by split.
  - unfold mbind, M_bind in Hrun.
    destruct (invoke m σ) as [[[] σ1]|] eqn:Hm; [|done].
    destruct (invoke_frame m σ σ1 Hm) as [Hobj1 Harr1].
    destruct (IH σ1 Hrun) as [Hobj2 Harr2]. split.
    + intros r ws Hr Hne. destruct (Hobj1 r ws Hr Hne) as [Hr1 Hne1]. eauto.
    + simpl. intros [Hm'%negb_true_iff Hms]%andb_prop l acts Hl. eauto.
Qed.

(** X11.  The object returned by [getState] keeps the [lastModified], the
    roster and the other fields it was given, whatever methods are called
    on the manager afterwards: later calls write to the state object of the
    store, never to a copy handed out before. *)
Theorem X11_copy_keeps_its_fields σ copy σ1 ms σ2 :
  getState σ = Some (copy, σ1) ->
  invoke_all ms σ1 = Some (tt, σ2) ->
  exists ws,
    objects σ !! whiteboardState σ = Some ws
    /\ objects σ1 !! copy = Some ws
    /\ objects σ2 !! copy = Some ws.
Proof.
  intros Hget Hrun.
  assert (exists ws, objects σ !! whiteboardState σ = Some ws) as [ws Hobj].
  { unfold getState, mbind, M_bind, this_ref, read_object in Hget.
    simpl in Hget. destruct (objects σ !! whiteboardState σ); [eauto|done]. }
  rewrite (getState_run σ ws Hobj) in Hget. injection Hget as <- <-.
  exists ws. split; [done|].
  assert (objects
            {| arrays := arrays σ;
               objects := <[fresh (dom (objects σ)) := ws]> (objects σ);
               whiteboardState := whiteboardState σ |}
          !! fresh (dom (objects σ)) = Some ws) as Hcopy
    by apply lookup_insert_eq.
  split; [exact Hcopy|].
  destruct (invoke_all_frame ms _ σ2 Hrun) as [Hframe _].
  apply (Hframe _ ws Hcopy). simpl. intros Heq.
  pose proof (fresh_object_free σ). congruence.
Qed.

Lemma X11_witness :
  exists ws,
    objects (store_with []) !! whiteboardState (store_with []) = Some ws
    /\ objects (world_after getState (store_with [])) !! 2%positive = Some ws
    /\ objects
         (world_after
            (invoke_all [CallAddAction draw_1000;
                         CallUpdateCollaborators
                           [mkCollaborator "u2" "Ann" "#ef4444" None true 5];
                         CallMergeActions [draw_3000] 7000])
            (world_after getState (store_with [])))
       !! 2%positive = Some ws.
Proof.
  apply (X11_copy_keeps_its_fields
           (store_with []) 2%positive (world_after getState (store_with []))
           [CallAddAction draw_1000;
            CallUpdateCollaborators
              [mkCollaborator "u2" "Ann" "#ef4444" None true 5];
            CallMergeActions [draw_3000] 7000]);
    vm_compute; reflexivity.
Defined.

(** X12.  A snapshot taken by [createSnapshot] and restored later brings
    back the operation list, [lastModified] and roster of the moment it was
    taken, provided no [addAction] was called in between (the other methods
    never write into an existing array). *)
Theorem X12_snapshot_restores_the_document σ acts now snapshot σ1 ms σ2 :
  store_actions σ = Some acts ->
  createSnapshot now σ = Some (snapshot, σ1) ->
  forallb (fun m => negb (pushes m)) ms = true ->
  invoke_all ms σ1 = Some (tt, σ2) ->
  exists σ3,
    restoreFromSnapshot snapshot σ2 = Some (tt, σ3)
    /\ store_actions σ3 = Some acts
    /\ store_lastModified σ3 = store_lastModified σ
    /\ store_collaborators σ3 = store_collaborators σ.
Proof.
  intros (ws & Hobj & Harr)%store_actions_inv Hsnap Hms Hrun.
  rewrite (createSnapshot_run σ ws now Hobj) in Hsnap.
  injection Hsnap as <- <-.
  destruct (invoke_all_frame ms _ σ2 Hrun) as [Hframe Harrs].
  specialize (Harrs Hms (actions ws) acts Harr).
  destruct (Hframe (fresh (dom (objects σ))) ws) as [Hsnap2 _].
  { apply lookup_insert_eq. }
  { simpl. intros Heq. pose proof (fresh_object_free σ). congruence. }
  eexists. split.
  - by apply (restoreFromSnapshot_run σ2 _ ws).
  - unfold store_actions, actions_at, store_lastModified, store_collaborators.
    simpl. rewrite !lookup_insert_eq, Hobj. by simpl.
Qed.

Lemma X12_witness :
  exists σ3,
    restoreFromSnapshot {| state := 2%positive; snap_timestamp := 7000 |}
      (world_after
         (invoke_all [CallMergeActions [draw_3000] 8000; CallOptimizeActions])
         (world_after (createSnapshot 7000) (store_with [draw_1000; clear_2000])))
    = Some (tt, σ3)
    /\ store_actions σ3 = Some [draw_1000; clear_2000]
    /\ store_lastModified σ3 = store_lastModified (store_with [draw_1000; clear_2000])
    /\ store_collaborators σ3
       = store_collaborators (store_with [draw_1000; clear_2000]).
Proof.
  apply (X12_snapshot_restores_the_document
           (store_with [draw_1000; clear_2000]) [draw_1000; clear_2000] 7000
           {| state := 2%positive; snap_timestamp := 7000 |}
           (world_after (createSnapshot 7000) (store_with [draw_1000; clear_2000]))
           [CallMergeActions [draw_3000] 8000; CallOptimizeActions]);
    vm_compute; reflexivity.
Defined.

(** ** [validateAction] and [isValidPoint] *)

Lemma is_action_type_true s :
  existsb (String.eqb s) ["draw"; "erase"; "clear"] = true
  <-> In s ["draw"; "erase"; "clear"].
Proof.
  rewrite existsb_exists. split.
  - intros (s' & Hin & ->%String.eqb_eq). done.
  - intros Hin. exists s. split; [done|]. apply String.eqb_refl.
Qed.

Lemma validateAction_object props :
  validateAction (JsObject props) = Some (JsBool true)
  \/ validateAction (JsObject props) = Some (JsBool false).
Proof.
  unfold validateAction, get. cbn -[existsb].
  destruct (own_property props "id"); cbn -[existsb]; auto.
  destruct (own_property props "type") as [| | | |k| |]; cbn -[existsb]; auto.
  destruct (existsb (String.eqb k) ["draw"; "erase"; "clear"]); cbn -[existsb]; auto.
  destruct (own_property props "points"); cbn -[existsb]; auto.
  destruct (own_property props "color"); cbn -[existsb]; auto.
  destruct (own_property props "strokeWidth"); cbn -[existsb]; auto.
  destruct (own_property props "timestamp"); cbn -[existsb]; auto.
  destruct (own_property props "userId"); cbn -[existsb]; auto.
Qed.

Lemma validateAction_object_true props :
  validateAction (JsObject props) = Some (JsBool true) <-> action_shaped props.
Proof.
  unfold validateAction, get, action_shaped. cbn -[existsb]. split.
  - destruct (own_property props "id") as [| | | |i| |]; cbn -[existsb]; try done.
    destruct (own_property props "type") as [| | | |k| |]; cbn -[existsb]; try done.
    destruct (existsb (String.eqb k) ["draw"; "erase"; "clear"]) eqn:Hk;
      cbn -[existsb]; try done.
    destruct (own_property props "points") as [| | | | |ps|]; cbn -[existsb]; try done.
    destruct (own_property props "color") as [| | | |c| |]; cbn -[existsb]; try done.
    destruct (own_property props "strokeWidth") as [| | |w| | |];
      cbn -[existsb]; try done.
    destruct (own_property props "timestamp") as [| | |t| | |];
      cbn -[existsb]; try done.
    destruct (own_property props "userId") as [| | | |u| |]; cbn -[existsb]; try done.
    intros _. exists i, k, ps, c, w, t, u.
    apply is_action_type_true in Hk. by repeat split.
  - intros (i & k & ps & c & w & t & u & -> & -> & Hk & -> & -> & -> & -> & ->).
    apply is_action_type_true in Hk. cbn -[existsb]. by rewrite Hk.
Qed.

(** X13.  [validateAction] never throws.  For a falsy argument it returns
    the argument itself ([null] for [null], [undefined] for [undefined]),
    not [false]; for every other argument it returns [true] or [false]. *)
Theorem X13_validateAction_result action :
  (truthy action = false -> validateAction action = Some action)
  /\ (truthy action = true ->
      validateAction action = Some (JsBool true)
      \/ validateAction action = Some (JsBool false)).
Proof.
  destruct action as [| |b|[|z]|s|items|props]; simpl; split; try done;
    try (intros _; by right).
  - by destruct b.
  - by destruct b; [right|].
  - unfold validateAction. simpl. by intros ->.
  - unfold validateAction. simpl. intros ->. by right.
  - unfold validateAction. simpl. by intros ->.
  - unfold validateAction. simpl. intros ->. by right.
  - intros _. apply validateAction_object.
Qed.

Lemma X13_witness :
  validateAction JsNull = Some JsNull
  /\ (validateAction (JsObject []) = Some (JsBool true)
      \/ validateAction (JsObject []) = Some (JsBool false)).
Proof.
  split.
  - by apply (X13_validateAction_result JsNull).
  - by apply (X13_validateAction_result (JsObject [])).
Defined.

(** X14.  [validateAction] answers [true] exactly for an object whose [id],
    [color] and [userId] are strings, whose [type] is one of the three
    kinds, whose [points] is an array and whose [strokeWidth] and
    [timestamp] are numbers.  Nothing else is looked at: the elements of
    [points] can be anything and the numbers can be [NaN]. *)
Theorem X14_validateAction_accepts_iff action :
  validateAction action = Some (JsBool true)
  <-> exists props, action = JsObject props /\ action_shaped props.
Proof.
  split.
  - destruct action as [| |b|[|z]|s|items|props]; try done.
    + unfold validateAction. simpl. by destruct b.
    + unfold validateAction. simpl. by destruct (z =? 0).
    + unfold validateAction. simpl. by destruct (String.eqb s "").
    + intros Hv%validateAction_object_true. eauto.
  - intros (props & -> & Hshape). by apply validateAction_object_true.
Qed.

(** X15.  Every [DrawingAction], as the object it is in JavaScript, is
    accepted by [validateAction], and so is the object with anything else
    as its [points] array. *)
Theorem X15_validateAction_accepts_every_action a items :
  validateAction (action_to_js a) = Some (JsBool true)
  /\ validateAction
       (JsObject
          [("id", JsString (id a));
           ("type", type_to_js (type a));
           ("points", JsArray items);
           ("color", JsString (color a));
           ("strokeWidth", JsNumber NaN);
           ("timestamp", JsNumber NaN);
           ("userId", JsString (userId a))])
     = Some (JsBool true).
Proof. split; unfold validateAction; simpl; by destruct (type a). Qed.

Lemma isValidPoint_object props :
  isValidPoint (JsObject props)
  = Some (JsBool
            match own_property props "x", own_property props "y" with
            | JsNumber (Num _), JsNumber (Num _) => true
            | _, _ => false
            end).
Proof.
  unfold isValidPoint, get. simpl.
  destruct (own_property props "x") as [| | |[|a]| | |]; simpl; try done;
    destruct (own_property props "y") as [| | |[|b]| | |]; simpl; done.
Qed.

(** X16.  [isValidPoint] throws for [null], and for nothing else; it
    answers [true] exactly for an object whose [x] and [y] are numbers
    other than [NaN], and [false] for every other value. *)
Theorem X16_isValidPoint_result point :
  (isValidPoint point = None <-> point = JsNull)
  /\ (isValidPoint point = Some (JsBool true)
      <-> exists props a b,
            point = JsObject props
            /\ own_property props "x" = JsNumber (Num a)
            /\ own_property props "y" = JsNumber (Num b))
  /\ (isValidPoint point = None
      \/ isValidPoint point = Some (JsBool true)
      \/ isValidPoint point = Some (JsBool false)).
Proof.
  destruct point as [| |b|n|s|items|props].
  1-6: unfold isValidPoint; simpl;
       (split; [split; intros H; by inversion H|]);
       (split; [|naive_solver]);
       (split; [intros H; by inversion H|]);
       by intros (? & ? & ? & H & _).
  rewrite isValidPoint_object. split; [split; intros H; by inversion H|].
  split.
  - split.
    + destruct (own_property props "x") as [| | |[|a]| | |] eqn:Hx; try done.
      destruct (own_property props "y") as [| | |[|b]| | |] eqn:Hy; try done.
      intros _. by exists props, a, b.
    + intros (props' & a & b & [= <-] & -> & ->). done.
  - destruct (own_property props "x") as [| | |[|a]| | |]; try naive_solver.
    destruct (own_property props "y") as [| | |[|b]| | |]; naive_solver.
Qed.

(** ** [CanvasOptimizer] and [MemoryManager] *)

Lemma sublist_same_length {A} (l1 l2 : list A) :
  sublist l1 l2 -> length l1 = length l2 -> l1 = l2.
Proof.
  induction 1 as [|a l1 l2 Hsub IH|a l1 l2 Hsub IH]; intros Hlen; [done|..].
  - f_equal. apply IH. simpl in Hlen. lia.
  - apply sublist_length in Hsub. simpl in Hlen. lia.
Qed.

Lemma sublist_List_filter {A} (f : A -> bool) l : sublist (List.filter f l) l.
Proof.
  induction l as [|a l IH]; simpl; [constructor|].
  destruct (f a); by constructor.
Qed.

Lemma simplify_loop_sublist tolerance lastPoint middle :
  sublist (simplify_loop tolerance lastPoint middle) middle.
Proof.
  revert lastPoint. induction middle as [|p middle IH]; intros lastPoint;
    simpl; [constructor|].
  destruct (farther_than tolerance p lastPoint); constructor; apply IH.
Qed.

Lemma removelast_app_last {A} (l : list A) :
  removelast l ++ option_list (last l) = l.
Proof.
  induction l as [|a [|b l] IH]; [done..|].
  rewrite last_cons_cons. change (removelast (a :: b :: l))
    with (a :: removelast (b :: l)). simpl. f_equal. exact IH.
Qed.

Lemma simplifyPath_sublist pts tolerance :
  sublist (simplifyPath pts tolerance) pts.
Proof.
  unfold simplifyPath.
  destruct (Nat.leb_spec (length pts) 2) as [Hle|Hgt]; [done|].
  destruct pts as [|first rest]; [done|].
  constructor. pose proof (removelast_app_last rest) as Hrest.
  remember (removelast rest) as m. remember (option_list (last rest)) as l.
  rewrite <- Hrest. apply sublist_app; [apply simplify_loop_sublist|done].
Qed.

Lemma simplifyPath_head pts tolerance :
  head (simplifyPath pts tolerance) = head pts.
Proof.
  unfold simplifyPath. destruct (length pts <=? 2)%nat; [done|].
  by destruct pts.
Qed.

Lemma simplifyPath_last pts tolerance :
  last (simplifyPath pts tolerance) = last pts.
Proof.
  unfold simplifyPath.
  destruct (Nat.leb_spec (length pts) 2) as [Hle|Hgt]; [done|].
  destruct pts as [|first rest]; [done|].
  destruct (last rest) as [l|] eqn:Hlast.
  - simpl. rewrite app_comm_cons, last_snoc.
    destruct rest; [done|]. by rewrite last_cons_cons.
  - apply last_None in Hlast as ->. simpl in Hgt. lia.
Qed.

(** X17.  [simplifyPath] only removes points: its result is the input with
    some points left out, in the same order; the first and the last point
    are always kept, and a path of at most two points comes back as it
    is. *)
Theorem X17_simplifyPath_keeps_ends pts tolerance :
  sublist (simplifyPath pts tolerance) pts
  /\ head (simplifyPath pts tolerance) = head pts
  /\ last (simplifyPath pts tolerance) = last pts
  /\ ((length pts <= 2)%nat -> simplifyPath pts tolerance = pts).
Proof.
  split; [apply simplifyPath_sublist|].
  split; [apply simplifyPath_head|].
  split; [apply simplifyPath_last|].
  intros Hle. unfold simplifyPath.
  by destruct (Nat.leb_spec (length pts) 2); [|lia].
Qed.

Lemma X17_witness :
  simplifyPath [mkPoint 0 0; mkPoint 9 9] 2 = [mkPoint 0 0; mkPoint 9 9].
Proof.
  apply (X17_simplifyPath_keeps_ends [mkPoint 0 0; mkPoint 9 9] 2).
  simpl. lia.
Defined.

(** Consecutive points of [lastPoint :: simplify_loop ...] are farther
    apart than the tolerance. *)
Lemma simplify_loop_spaced tolerance lastPoint middle i p q :
  (lastPoint :: simplify_loop tolerance lastPoint middle) !! i = Some p ->
  (lastPoint :: simplify_loop tolerance lastPoint middle) !! S i = Some q ->
  farther_than tolerance q p = true.
Proof.
  revert lastPoint i. induction middle as [|c middle IH]; intros lastPoint i.
  - simpl. by destruct i.
  - simpl. destruct (farther_than tolerance c lastPoint) eqn:Hfar.
    + destruct i as [|i].
      * simpl. by intros [= <-] [= <-].
      * intros Hp Hq. by apply (IH c i).
    + apply IH.
Qed.

(** X18.  In the result of [simplifyPath] on a path of more than two
    points, every point but the last is farther than the tolerance from
    the point kept before it (the last point is kept whatever its
    distance). *)
Theorem X18_simplifyPath_spacing pts tolerance i p q :
  (2 < length pts)%nat ->
  removelast (simplifyPath pts tolerance) !! i = Some p ->
  removelast (simplifyPath pts tolerance) !! S i = Some q ->
  farther_than tolerance q p = true.
Proof.
  intros Hlen. unfold simplifyPath.
  destruct (Nat.leb_spec (length pts) 2) as [Hle|_]; [lia|].
  destruct pts as [|first rest]; [simpl in Hlen; lia|].
  destruct (last rest) as [l|] eqn:Hlast.
  - simpl option_list. rewrite app_comm_cons, List.removelast_last.
    apply simplify_loop_spaced.
  - apply last_None in Hlast as ->. simpl in Hlen. lia.
Qed.

Lemma X18_witness :
  farther_than 2 (mkPoint 5 5) (mkPoint 0 0) = true.
Proof.
  apply (X18_simplifyPath_spacing
           [mkPoint 0 0; mkPoint 1 1; mkPoint 5 5; mkPoint 6 6; mkPoint 9 9]
           2 0 (mkPoint 0 0) (mkPoint 5 5)).
  - simpl. lia.
  - reflexivity.
  - reflexivity.
Defined.

(** X19.  [optimizeDrawingActions] returns as many operations as it is
    given, in the same order; each keeps its id, kind, color, width,
    timestamp and author, its points are points of the original in their
    order, with the same first and last point; an operation of at most
    1000 points is returned as it is. *)
Theorem X19_optimizeDrawingActions_shape acts :
  Forall2
    (fun a b =>
       id b = id a /\ type b = type a /\ color b = color a
       /\ strokeWidth b = strokeWidth a /\ timestamp b = timestamp a
       /\ userId b = userId a
       /\ sublist (points b) (points a)
       /\ head (points b) = head (points a)
       /\ last (points b) = last (points a)
       /\ ((length (points a) <= 1000)%nat -> b = a))
    acts (optimizeDrawingActions acts).
Proof.
  unfold optimizeDrawingActions. induction acts as [|a acts IH]; simpl;
    constructor; [|exact IH].
  unfold MAX_POINTS_PER_ACTION.
  destruct (Nat.ltb_spec 1000 (length (points a))) as [Hlt|Hle].
  - simpl.
    pose proof (simplifyPath_sublist (points a) 2).
    pose proof (simplifyPath_head (points a) 2).
    pose proof (simplifyPath_last (points a) 2).
    repeat split; try done. lia.
  - repeat split; done.
Qed.

Lemma slice_from_last_n {A} (l : list A) (n : Z) :
  0 < n -> slice_from l (- n) = drop (length l - Z.to_nat n) l.
Proof.
  intros Hn. unfold slice_from.
  destruct (Z.ltb_spec (- n) 0) as [_|?]; [|lia]. f_equal. lia.
Qed.

Lemma slice_from_zero {A} (l : list A) : slice_from l (- 0) = l.
Proof. unfold slice_from. simpl. by rewrite Z.min_l by lia. Qed.

Lemma slice_from_suffix {A} (l : list A) (start : Z) :
  exists dropped, l = dropped ++ slice_from l start.
Proof.
  unfold slice_from. eexists. symmetry. apply take_drop.
Qed.

(** X20.  [limitActions] with a positive [maxCount] returns the last
    [maxCount] operations (all of them when there are fewer); whatever
    [maxCount] is, it returns the end of the list; and with [maxCount = 0]
    it returns the whole list, since [slice(-0)] is [slice(0)]. *)
Theorem X20_limitActions acts maxCount :
  (0 < maxCount ->
   limitActions acts maxCount = drop (length acts - Z.to_nat maxCount) acts
   /\ length (limitActions acts maxCount)
      = Nat.min (length acts) (Z.to_nat maxCount))
  /\ (exists dropped, acts = dropped ++ limitActions acts maxCount)
  /\ limitActions acts 0 = acts.
Proof.
  split; [|split].
  - intros Hpos. unfold limitActions.
    destruct (Z.leb_spec (Z.of_nat (length acts)) maxCount) as [Hle|Hgt].
    + replace (length acts - Z.to_nat maxCount)%nat with 0%nat by lia.
      simpl. split; [done|lia].
    + rewrite slice_from_last_n by done. split; [done|].
      rewrite length_drop. lia.
  - unfold limitActions. destruct (_ <=? _); [by exists []|].
    apply slice_from_suffix.
  - unfold limitActions. destruct (_ <=? _); [done|]. apply slice_from_zero.
Qed.

Lemma X20_witness :
  limitActions [draw_1000; clear_2000; draw_3000] 2
  = drop (length [draw_1000; clear_2000; draw_3000] - Z.to_nat 2)
      [draw_1000; clear_2000; draw_3000]
  /\ length (limitActions [draw_1000; clear_2000; draw_3000] 2)
     = Nat.min (length [draw_1000; clear_2000; draw_3000]) (Z.to_nat 2).
Proof.
  apply (X20_limitActions [draw_1000; clear_2000; draw_3000] 2). lia.
Defined.

(** X21.  [cleanupOldActions] keeps, in their order, exactly the operations
    whose timestamp is not [0] and whose age [now - timestamp] is below
    [maxAge]: an operation stamped [0] is always removed, and one stamped
    in the future is kept whenever [maxAge] is positive. *)
Theorem X21_cleanupOldActions acts maxAge now :
  sublist (cleanupOldActions acts maxAge now) acts
  /\ (forall a, In a (cleanupOldActions acts maxAge now)
                <-> In a acts /\ timestamp a <> 0
                    /\ now - timestamp a < maxAge)
  /\ (forall a, timestamp a = 0 -> ~ In a (cleanupOldActions acts maxAge now))
  /\ (forall a, In a acts -> 0 < maxAge -> 0 <= now -> now < timestamp a ->
                In a (cleanupOldActions acts maxAge now)).
Proof.
  assert (forall a, In a (cleanupOldActions acts maxAge now)
                    <-> In a acts /\ timestamp a <> 0
                        /\ now - timestamp a < maxAge) as Hiff.
  { intros a. unfold cleanupOldActions.
    rewrite filter_In, andb_true_iff, negb_true_iff, Z.eqb_neq, Z.ltb_lt.
    tauto. }
  split; [apply sublist_List_filter|]. split; [exact Hiff|]. split.
  - intros a H0 Hin%Hiff. tauto.
  - intros a Hin Hage Hnow Hfut. apply Hiff. split; [done|]. lia.
Qed.

Lemma X21_witness :
  In draw_1000 (cleanupOldActions [draw_1000] 300000 500).
Proof.
  apply (X21_cleanupOldActions [draw_1000] 300000 500).
  - by left.
  - lia.
  - lia.
  - vm_compute. reflexivity.
Defined.

Lemma limitActions_sublist acts maxCount :
  sublist (limitActions acts maxCount) acts.
Proof.
  unfold limitActions. destruct (_ <=? _); [done|]. apply sublist_drop.
Qed.

(** X22.  One round of the periodic cleanup: whether or not [setActions] is
    called, the operations afterwards are the cleaned and limited ones (the
    comparison of lengths misses no change); at most 10000 of them are
    left, none stamped [0] and none aged 300000 ms or more. *)
Theorem X22_periodicCleanup acts now :
  default acts (periodicCleanup acts now)
  = limitActions (cleanupOldActions acts 300000 now) MAX_ACTIONS
  /\ Z.of_nat (length (default acts (periodicCleanup acts now))) <= 10000
  /\ Forall (fun a => timestamp a <> 0 /\ now - timestamp a < 300000)
       (default acts (periodicCleanup acts now)).
Proof.
  assert (default acts (periodicCleanup acts now)
          = limitActions (cleanupOldActions acts 300000 now) MAX_ACTIONS)
    as Heq.
  { unfold periodicCleanup.
    destruct (Nat.eqb_spec
                (length (limitActions (cleanupOldActions acts 300000 now)
                           MAX_ACTIONS))
                (length acts)) as [Hlen|Hlen]; [|done].
    simpl. symmetry. apply sublist_same_length; [|done].
    etrans; [apply limitActions_sublist|apply sublist_List_filter]. }
  rewrite Heq. split; [done|]. split.
  - unfold limitActions, MAX_ACTIONS.
    destruct (Z.leb_spec (Z.of_nat (length (cleanupOldActions acts 300000 now)))
                10000) as [Hle|Hgt]; [lia|].
    rewrite slice_from_last_n, length_drop by lia. lia.
  - apply Forall_forall. intros a Ha. apply list_elem_of_In in Ha.
    assert (In a (cleanupOldActions acts 300000 now)) as Hin.
    { pose proof (limitActions_sublist (cleanupOldActions acts 300000 now)
                    MAX_ACTIONS) as Hsub.
      apply sublist_subseteq in Hsub. apply list_elem_of_In, Hsub.
      by apply list_elem_of_In. }
    unfold cleanupOldActions in Hin. apply filter_In in Hin as [_ Hin].
    apply andb_prop in Hin as [Hz%negb_true_iff%Z.eqb_neq Hage%Z.ltb_lt].
    done.
Qed.

(** ** The error log *)

Lemma handleError_length error now log :
  (length log <= 100)%nat -> (length (handleError error now log) <= 100)%nat.
Proof.
  intros Hlen. unfold handleError, maxLogSize.
  destruct (Z.ltb_spec 100 (Z.of_nat (length (log ++ [stamped error now]))))
    as [Hgt|Hle]; [|lia].
  rewrite slice_from_last_n, length_drop, length_app by lia. simpl. lia.
Qed.

(** X23.  The error log never holds more than 100 errors: a log of at most
    100 entries (the empty log of a new handler in particular) has at most
    100 entries after any sequence of [handleError] and [clearErrorLog]. *)
Theorem X23_error_log_bounded events log :
  (length log <= 100)%nat ->
  (length (fold_left log_step events log) <= 100)%nat.
Proof.
  revert log. induction events as [|e events IH]; intros log Hlen; [done|].
  simpl. apply IH. destruct e as [error now|]; simpl; [|lia].
  by apply handleError_length.
Qed.

Lemma X23_witness :
  (length (fold_left log_step
             [Handle (mkAppError RUNTIME_ERROR "boom" None None 0 None None) 5;
              Clear;
              Handle (mkAppError NETWORK_ERROR "down" None None 0 None None) 9]
             []) <= 100)%nat.
Proof.
  apply (X23_error_log_bounded
           [Handle (mkAppError RUNTIME_ERROR "boom" None None 0 None None) 5;
            Clear;
            Handle (mkAppError NETWORK_ERROR "down" None None 0 None None) 9]
           []).
  simpl. lia.
Defined.

(** X24.  After a series of errors handled from an empty log, the log holds
    the last 100 of them (all of them when there are fewer), in the order
    they were handled, each stamped with the time it was handled at. *)
Theorem X24_error_log_keeps_most_recent (errors : list (AppError * Z)) :
  fold_left (fun log et => handleError (fst et) (snd et) log) errors []
  = drop (length errors - 100)
      (map (fun et => stamped (fst et) (snd et)) errors).
Proof.
  induction errors as [|[e t] errors IH] using rev_ind; [done|].
  rewrite fold_left_app, IH, map_app, length_app. simpl.
  set (S := map (fun et => stamped (fst et) (snd et)) errors).
  assert (length S = length errors) as HS by apply length_map.
  unfold handleError, maxLogSize.
  rewrite length_app, length_drop, HS. simpl.
  destruct (Z.ltb_spec 100
              (Z.of_nat (length errors - (length errors - 100) + 1)))
    as [Hgt|Hle].
  - rewrite slice_from_last_n by lia.
    rewrite length_app, length_drop, HS. simpl.
    rewrite drop_app_le by (rewrite length_drop; lia).
    rewrite drop_drop. rewrite drop_app_le by lia.
    do 2 f_equal. lia.
  - rewrite drop_app_le by lia. do 2 f_equal. lia.
Qed.

(** X25.  [getRecentErrors] with a positive count returns the last [count]
    errors of the log (the whole log when it is shorter); with a count of
    [0] it returns the whole log, not an empty list. *)
Theorem X25_getRecentErrors count log :
  (0 < count ->
   getRecentErrors count log = drop (length log - Z.to_nat count) log
   /\ length (getRecentErrors count log)
      = Nat.min (length log) (Z.to_nat count))
  /\ getRecentErrors 0 log = log.
Proof.
  unfold getRecentErrors. split.
  - intros Hpos. rewrite slice_from_last_n by done. split; [done|].
    rewrite length_drop. lia.
  - apply slice_from_zero.
Qed.

Lemma X25_witness :
  getRecentErrors 1
    [mkAppError RUNTIME_ERROR "a" None None 1 None None;
     mkAppError RUNTIME_ERROR "b" None None 2 None None]
  = [mkAppError RUNTIME_ERROR "b" None None 2 None None].
Proof.
  apply (X25_getRecentErrors 1
           [mkAppError RUNTIME_ERROR "a" None None 1 None None;
            mkAppError RUNTIME_ERROR "b" None None 2 None None]).
  lia.
Defined.

(** ** Reconnection *)

Lemma handleReconnect_range attempts :
  0 <= attempts <= 5 ->
  0 <= fst (handleReconnect attempts) <= 5
  /\ forall delay, snd (handleReconnect attempts) = Some delay ->
       In delay [1000; 2000; 4000; 8000; 16000].
Proof.
  intros Hr. unfold handleReconnect, maxReconnectAttempts, reconnectDelay.
  destruct (Z.ltb_spec attempts 5) as [Hlt|Hge]; simpl; [|split; [lia|done]].
  split; [lia|]. intros delay [= <-].
  assert (attempts = 0 \/ attempts = 1 \/ attempts = 2 \/ attempts = 3
          \/ attempts = 4) as Hcases by lia.
  destruct Hcases as [->|[->|[->|[->| ->]]]]; simpl; tauto.
Qed.

(** X26.  The manager never counts more than five reconnection attempts
    and every timer it sets waits 1000, 2000, 4000, 8000 or 16000 ms,
    whatever the sequence of connections and disconnections; after five
    disconnections in a row that it answers, a further one sets no
    timer. *)
Theorem X26_reconnect_bounded attempts events :
  0 <= attempts <= 5 ->
  0 <= fst (socket_run attempts events) <= 5
  /\ Forall (fun delay => In delay [1000; 2000; 4000; 8000; 16000])
       (snd (socket_run attempts events))
  /\ snd (handleReconnect 5) = None.
Proof.
  intros Hr. split; [|split; [|done]].
  - revert attempts Hr. induction events as [|e events IH]; intros a Hr;
      [done|]. simpl.
    destruct (on_socket_event a e) as [a' timer] eqn:He.
    assert (0 <= a' <= 5) as Hr'.
    { destruct e as [|reason]; simpl in He.
      - injection He as <- _. lia.
      - destruct (String.eqb reason "io server disconnect").
        + by injection He as <- _.
        + pose proof (handleReconnect_range a Hr) as [H _].
          by rewrite He in H. }
    specialize (IH a' Hr'). by destruct (socket_run a' events).
  - revert attempts Hr. induction events as [|e events IH]; intros a Hr;
      [constructor|]. simpl.
    destruct (on_socket_event a e) as [a' timer] eqn:He.
    assert (0 <= a' <= 5
            /\ forall d, timer = Some d -> In d [1000; 2000; 4000; 8000; 16000])
      as [Hr' Htimer].
    { destruct e as [|reason]; simpl in He.
      - injection He as <- <-. split; [lia|done].
      - destruct (String.eqb reason "io server disconnect").
        + injection He as <- <-. by split.
        + pose proof (handleReconnect_range a Hr) as H.
          by rewrite He in H. }
    specialize (IH a' Hr'). destruct (socket_run a' events) as [final timers].
    simpl in *. apply Forall_app. split; [|done].
    destruct timer as [d|]; [|constructor].
    constructor; [by apply Htimer|constructor].
Qed.

Lemma X26_witness :
  0 <= fst (socket_run 0 [Disconnected "transport close"; Connected;
                          Disconnected "ping timeout"]) <= 5
  /\ Forall (fun delay => In delay [1000; 2000; 4000; 8000; 16000])
       (snd (socket_run 0 [Disconnected "transport close"; Connected;
                           Disconnected "ping timeout"]))
  /\ snd (handleReconnect 5) = None.
Proof.
  apply (X26_reconnect_bounded 0). lia.
Defined.

(** ** The updaters of [useWhiteboard] *)

Lemma ListNoDup_snoc {A} (l : list A) a :
  List.NoDup l -> ~ In a l -> List.NoDup (l ++ [a]).
Proof.
  induction l as [|b l IH]; intros Hnd Ha; simpl.
  - constructor; [by intros []|constructor].
  - apply NoDup_cons_iff in Hnd as [Hb Hnd]. constructor.
    + intros [Hin|[<-|[]]]%in_app_or; [done|]. apply Ha. by left.
    + apply IH; [done|]. intros Hin. apply Ha. by right.
Qed.

Lemma existsb_same_id_iff (action : DrawingAction) l :
  existsb (fun a => String.eqb (id a) (id action)) l = true
  <-> In (id action) (map id l).
Proof. apply existsb_same_id. Qed.

(** X27.  The updater of [handleRemoteAction] ignores an operation whose id
    is already in the document: delivering an operation a second time
    changes nothing, and a document whose ids are pairwise distinct keeps
    them so. *)
Theorem X27_remote_action_delivered_once action prev :
  remoteAction_update action (remoteAction_update action prev)
  = remoteAction_update action prev
  /\ (forall b, prev = Some b -> List.NoDup (map id (board_actions b)) ->
        exists b', remoteAction_update action prev = Some b'
                   /\ List.NoDup (map id (board_actions b'))
                   /\ In (id action) (map id (board_actions b'))).
Proof.
  split.
  - destruct prev as [b|]; [|done]. simpl.
    destruct (existsb _ (board_actions b)) eqn:Hex; simpl.
    + by rewrite Hex.
    + rewrite existsb_app. simpl. by rewrite String.eqb_refl, orb_true_r.
  - intros b -> Hnd. simpl.
    destruct (existsb _ (board_actions b)) eqn:Hex.
    + exists b. split; [done|]. split; [done|].
      by apply existsb_same_id_iff.
    + eexists. split; [done|]. simpl. rewrite map_app. simpl. split.
      * apply ListNoDup_snoc; [done|].
        intros Hs%existsb_same_id_iff. congruence.
      * apply in_or_app. right. by left.
Qed.

Lemma X27_witness :
  exists b',
    remoteAction_update draw_1000
      (Some (mkBoard "board" "Board" [draw_3000] 3000 "user1" []))
    = Some b'
    /\ List.NoDup (map id (board_actions b'))
    /\ In (id draw_1000) (map id (board_actions b')).
Proof.
  destruct (X27_remote_action_delivered_once draw_1000
              (Some (mkBoard "board" "Board" [draw_3000] 3000 "user1" [])))
    as [_ Hkeep].
  apply (Hkeep (mkBoard "board" "Board" [draw_3000] 3000 "user1" [])).
  - reflexivity.
  - simpl. repeat constructor. by intros [].
Defined.

Lemma keep_first_NoDup_filter seen l :
  List.NoDup (map id l) ->
  keep_first_by_id seen l
  = List.filter (fun a => negb (existsb (String.eqb (id a)) seen)) l.
Proof.
  revert seen. induction l as [|a l IH]; intros seen Hnd; [done|].
  apply NoDup_cons_iff in Hnd as [Ha Hnd]. simpl.
  destruct (existsb (String.eqb (id a)) seen) eqn:Hex; simpl.
  - by apply IH.
  - f_equal. rewrite IH by done. apply filter_ext_in. intros b Hb. simpl.
    destruct (String.eqb_spec (id b) (id a)) as [Heq|_]; [|done].
    destruct Ha. rewrite <- Heq. by apply in_map.
Qed.

(** X28.  When neither the document nor the incoming state repeats an id,
    the updater of [handleStateSync] in [useWhiteboard] and [mergeActions]
    of the manager compute the same operation list; it is sorted and the
    operations of the document are all in it. *)
Theorem X28_stateSync_agrees_with_merge prev incoming :
  List.NoDup (map id prev) -> List.NoDup (map id incoming) ->
  stateSync_actions prev incoming = merged_of prev incoming
  /\ sorted_asc (stateSync_actions prev incoming)
  /\ (forall a, In a prev -> In a (stateSync_actions prev incoming)).
Proof.
  intros Hprev Hinc. split; [|split].
  - rewrite merged_of_spec. unfold stateSync_actions, spec_merge.
    rewrite keep_first_app.
    rewrite (keep_first_NoDup_id [] prev) by (done || by intros ? _ []).
    by rewrite app_nil_r, keep_first_NoDup_filter.
  - apply sort_sorted_asc.
  - intros a Ha. apply In_sort, in_or_app. by left.
Qed.

Lemma X28_witness :
  stateSync_actions [draw_1000] [draw_far_500; draw_1000]
  = merged_of [draw_1000] [draw_far_500; draw_1000].
Proof.
  apply (X28_stateSync_agrees_with_merge [draw_1000] [draw_far_500; draw_1000]).
  - repeat constructor. by intros [].
  - simpl. constructor; [|repeat constructor; by intros []].
    intros [H|[]]. by inversion H.
Defined.

Lemma find_same_id_Some (user : Collaborator) prev :
  is_Some (List.find (fun c => String.eqb (c_id c) (c_id user)) prev)
  <-> In (c_id user) (map c_id prev).
Proof.
  induction prev as [|c prev IH]; simpl.
  - split; [by intros [? ?]|done].
  - destruct (String.eqb_spec (c_id c) (c_id user)) as [Heq|Hne].
    + split; [by left|eauto].
    + rewrite IH. split; [by right|]. by intros [?|?].
Qed.

Lemma imap_ids {B} (f : nat -> Collaborator -> Collaborator) (g : Collaborator -> B) l :
  (forall i c, g (f i c) = g c) -> map g (imap f l) = map g l.
Proof.
  revert f. induction l as [|c l IH]; intros f Hf; [done|].
  simpl. rewrite Hf. f_equal. apply IH. intros i c'. apply Hf.
Qed.

(** X29.  The roster updaters never remove anybody.  After a join the
    collaborators carry the ids they carried, in the same order, followed
    by the id of the newcomer when it was not among them; the newcomer is
    in the roster, active, and distinct ids stay distinct.  After a leave
    the ids are exactly as before. *)
Theorem X29_roster_never_shrinks user userId clock prev :
  (map c_id (userJoin_update user prev)
   = map c_id prev
     ++ (if existsb (String.eqb (c_id user)) (map c_id prev) then []
         else [c_id user]))
  /\ In (activated user) (userJoin_update user prev)
  /\ (List.NoDup (map c_id prev) ->
      List.NoDup (map c_id (userJoin_update user prev)))
  /\ map c_id (userLeave_update userId clock prev) = map c_id prev.
Proof.
  assert (map c_id (userJoin_update user prev)
          = map c_id prev
            ++ (if existsb (String.eqb (c_id user)) (map c_id prev) then []
                else [c_id user])) as Hids.
  { unfold userJoin_update.
    destruct (List.find _ prev) as [c|] eqn:Hfind.
    - assert (In (c_id user) (map c_id prev)) as Hin
        by (apply find_same_id_Some; rewrite Hfind; eauto).
      apply existsb_id_eqb in Hin as ->. rewrite app_nil_r.
      rewrite map_map. apply map_ext. intros c'.
      by destruct (String.eqb_spec (c_id c') (c_id user)).
    - assert (~ In (c_id user) (map c_id prev)) as Hin.
      { intros Hin%find_same_id_Some. rewrite Hfind in Hin.
        by destruct Hin. }
      assert (existsb (String.eqb (c_id user)) (map c_id prev) = false) as ->.
      { apply not_true_is_false. by intros ?%existsb_id_eqb. }
      by rewrite map_app. }
  split; [exact Hids|]. split; [|split].
  - unfold userJoin_update.
    destruct (List.find _ prev) as [c|] eqn:Hfind.
    + apply find_some in Hfind as [Hin Heq]. apply in_map_iff.
      exists c. by rewrite Heq.
    + apply in_or_app. right. by left.
  - intros Hnd. rewrite Hids.
    destruct (existsb (String.eqb (c_id user)) (map c_id prev)) eqn:Hex.
    + by rewrite app_nil_r.
    + apply ListNoDup_snoc; [done|].
      intros Hin%existsb_id_eqb. congruence.
  - unfold userLeave_update. apply imap_ids. intros i c.
    by destruct (String.eqb (c_id c) userId).
Qed.

Lemma X29_witness :
  List.NoDup
    (map c_id
       (userJoin_update (mkCollaborator "u2" "Ann" "#ef4444" None false 5)
          [mkCollaborator "u1" "Bob" "#22c55e" None true 1])).
Proof.
  destruct (X29_roster_never_shrinks
              (mkCollaborator "u2" "Ann" "#ef4444" None false 5) "u1"
              (fun _ => 0) [mkCollaborator "u1" "Bob" "#22c55e" None true 1])
    as (_ & _ & Hnd & _).
  apply Hnd. simpl. repeat constructor. by intros [].
Defined.

(** ** The route [pages/api/whiteboards/[id].ts] *)

Lemma storage_get_truthy storage k :
  truthy (storage_get storage k) = true -> k ∈ dom storage.
Proof.
  unfold storage_get. intros Ht. apply elem_of_dom.
  destruct (storage !! k); [eauto|done].
Qed.

Lemma whiteboard_handler_dom req now storage :
  dom (snd (whiteboard_handler req now storage)) ⊆ dom storage.
Proof.
  unfold whiteboard_handler, handleGetWhiteboard, handleUpdateWhiteboard,
    handleDeleteWhiteboard.
  destruct (req_query_id req) as [| | | |k| |]; try done.
  repeat case_match; simpl; try done.
  - rewrite dom_insert_L.
    assert (k ∈ dom storage).
    { apply storage_get_truthy.
      by destruct (truthy (storage_get storage k)). }
    apply union_least; [by apply singleton_subseteq_l|done].
  - rewrite dom_delete_L. apply subseteq_difference_l. done.
Qed.

Lemma whiteboard_handler_empty req now :
  snd (whiteboard_handler req now ∅) = ∅
  /\ In (res_status (fst (whiteboard_handler req now ∅))) [400; 404; 405].
Proof.
  unfold whiteboard_handler, handleGetWhiteboard, handleUpdateWhiteboard,
    handleDeleteWhiteboard, storage_get.
  destruct (req_query_id req) as [| | | |k| |]; simpl; try tauto.
  rewrite !lookup_empty. simpl.
  repeat case_match; simpl; split; try done; tauto.
Qed.

(** X30.  The route never stores a whiteboard under an id it does not
    already hold: whatever the requests, the ids in its storage are among
    those it started with.  Its storage starts empty, so it stays empty and
    every request is answered 400, 404 or 405. *)
Theorem X30_whiteboard_route_never_creates reqs storage :
  dom (snd (serve reqs storage)) ⊆ dom storage
  /\ snd (serve reqs ∅) = ∅
  /\ Forall (fun res => In (res_status res) [400; 404; 405])
       (fst (serve reqs ∅)).
Proof.
  split; [|split].
  - revert storage. induction reqs as [|[req now] reqs IH]; intros storage;
      [done|]. simpl.
    pose proof (whiteboard_handler_dom req now storage) as Hdom.
    destruct (whiteboard_handler req now storage) as [res storage1].
    specialize (IH storage1). destruct (serve reqs storage1). simpl in *.
    set_solver.
  - induction reqs as [|[req now] reqs IH]; [done|]. simpl.
    pose proof (whiteboard_handler_empty req now) as [Hs _].
    destruct (whiteboard_handler req now ∅) as [res storage1].
    simpl in Hs. subst. by destruct (serve reqs ∅).
  - induction reqs as [|[req now] reqs IH]; [constructor|]. simpl.
    pose proof (whiteboard_handler_empty req now) as [Hs Hst].
    destruct (whiteboard_handler req now ∅) as [res storage1].
    simpl in Hs, Hst. subst. destruct (serve reqs ∅). simpl in *.
    by constructor.
Qed.
